(** * Cursor smoothing of open-screenstudio

    A shallow embedding of the TypeScript sources

    - [src/processing/spring.ts]          (module [Spring]),
    - [src/processing/cursorSmoothing.ts] (module [CursorSmoothing]; its
      frame loop taken apart in module [Incremental], and the incremental
      mode as the specification words it in module [SpecResample]),
    - [calculateScale] of [src/components/editor/CursorOverlay.tsx]
      (module [CursorOverlay]) and the component [CursorOverlay] itself
      (module [OverlayComponent]),
    - [formatTime] of [src/components/recording/RecordingView.tsx] and of
      the editor view (module [TimeFormat]),
    - [handleFrameStep] of the editor view (module [EditorView]),

    and the properties of the motion smoothing engine stated about them.

    Numbers.  A JavaScript [number] is modelled as an exact real ([R]):
    the four operations, [Math.sqrt], [Math.abs], [Math.min], [Math.max]
    and the comparisons are the real ones, [Math.ceil] and [Math.floor]
    are the integer ceiling [Zceil] and floor [Zfloor].  Rounding, [NaN]
    and the infinities are outside this model; in particular a division
    by 0, which gives [NaN] or an infinity in JavaScript, has no faithful
    counterpart here, and a statement that depends on a quotient has the
    hypothesis that the divisor (the mass, the output fps) is not 0.
    A [number] that only ever holds an integer (a frame counter, an array
    index, a frame count) is a [nat] or a [Z].

    Effects.  [CursorSmoother] is a mutable object: its methods are
    functions from the object's state to the new state (and the returned
    value).  A function that can raise returns an [outcome]. *)

From Stdlib Require Import Reals Lra Psatz Lia ZArith List Bool String Sorted.
From Stdlib Require Import Ascii DecimalString DecimalZ.
From Equations Require Import Equations.
Import ListNotations.

Open Scope R_scope.

(** ** JavaScript comparisons on numbers, as booleans *)

Definition num_lt (a b : R) : bool := if Rlt_dec a b then true else false.
Definition num_le (a b : R) : bool := if Rle_dec a b then true else false.
Definition num_gt (a b : R) : bool := num_lt b a.
Definition num_eq (a b : R) : bool := if Req_dec_T a b then true else false.

(** ** Sequences

    [u n] is eventually within any positive distance of 0, and stays
    there. *)

Definition tendsToZero (u : nat -> R) : Prop :=
  forall eps, 0 < eps -> exists N, forall n, (N <= n)%nat -> Rabs (u n) < eps.

(** ** Outcomes of a call

    [TypeError] is what reading a property of [undefined] raises (an array
    read out of range followed by a field access).  [ConfigError] is the
    error the specification names for an invalid spring configuration; no
    function of the sources raises it.  A function of the sources that
    cannot raise is a plain function. *)

Inductive JsError : Type :=
| TypeError
| ConfigError.

Inductive outcome (A : Type) : Type :=
| Returns (a : A)
| Throws (e : JsError).

Arguments Returns {A} a.
Arguments Throws {A} e.

(** * spring.ts *)

Module Spring.

Record SpringConfig : Type := mkSpringConfig {
  stiffness : R;
  damping : R;
  mass : R
}.

Definition DEFAULT_SPRING_CONFIG : SpringConfig :=
  {| stiffness := 800; damping := 80; mass := 1 |}.

Record SpringState : Type := mkSpringState {
  position : R;
  velocity : R
}.

Definition createSpringState (initial : R) : SpringState :=
  {| position := initial; velocity := 0 |}.

Definition stepSpring (state : SpringState) (target : R)
    (config : SpringConfig) (dt : R) : SpringState :=
  let displacement := position state - target in
  let springForce := - stiffness config * displacement in
  let dampingForce := - damping config * velocity state in
  let acceleration := (springForce + dampingForce) / mass config in
  let newVelocity := velocity state + acceleration * dt in
  let newPosition := position state + newVelocity * dt in
  {| position := newPosition; velocity := newVelocity |}.

(** The default of [isSpringSettled]'s and [isSpring2DSettled]'s
    [threshold] parameter. *)
Definition DEFAULT_SETTLE_THRESHOLD : R := 1 / 10.

Definition isSpringSettled (state : SpringState) (target threshold : R)
    : bool :=
  num_lt (Rabs (position state - target)) threshold
  && num_lt (Rabs (velocity state)) threshold.

Record Spring2DState : Type := mkSpring2DState {
  x : SpringState;
  y : SpringState
}.

Definition createSpring2D (x0 y0 : R) : Spring2DState :=
  {| x := createSpringState x0; y := createSpringState y0 |}.

Definition stepSpring2D (state : Spring2DState) (targetX targetY : R)
    (config : SpringConfig) (dt : R) : Spring2DState :=
  {| x := stepSpring (x state) targetX config dt;
     y := stepSpring (y state) targetY config dt |}.

Definition getSpring2DPosition (state : Spring2DState) : R * R :=
  (position (x state), position (y state)).

Definition isSpring2DSettled (state : Spring2DState)
    (targetX targetY threshold : R) : bool :=
  isSpringSettled (x state) targetX threshold
  && isSpringSettled (y state) targetY threshold.

(** [n] successive steps toward an unchanged target with a fixed [dt]. *)
Fixpoint stepSpringN (n : nat) (state : SpringState) (target : R)
    (config : SpringConfig) (dt : R) : SpringState :=
  match n with
  | O => state
  | S n' => stepSpringN n' (stepSpring state target config dt) target config dt
  end.

End Spring.

(** * cursorSmoothing.ts *)

Module CursorSmoothing.

Import Spring.

(** Raw mouse movement event from input tracking. *)
Record MouseMoveEvent : Type := mkMouseMoveEvent {
  x : R;
  y : R;
  cursorId : string;
  processTimeMs : R
}.

(** Smoothed cursor position: the fields [x], [y], [rawX], [rawY] and
    [cursorId] of the source's [SmoothedPosition] ([x], [y] and [cursorId]
    renamed, the names being taken by [MouseMoveEvent]). *)
Record SmoothedPosition : Type := mkSmoothedPosition {
  smoothedX : R;
  smoothedY : R;
  rawX : R;
  rawY : R;
  smoothedCursorId : string
}.

Definition DEFAULT_TELEPORT_THRESHOLD : R := 500.

(** The fields of a [CursorSmoother] object; [lastRawPosition] is [null]
    ([None]) until the first [update] or [reset]. *)
Record CursorSmoother : Type := mkCursorSmoother {
  spring : Spring2DState;
  config : SpringConfig;
  lastRawPosition : option (R * R);
  teleportThreshold : R
}.

(** [new CursorSmoother(config, teleportThreshold)]. *)
Definition newCursorSmoother (config0 : SpringConfig)
    (teleportThreshold0 : R) : CursorSmoother :=
  {| spring := createSpring2D 0 0;
     config := config0;
     lastRawPosition := None;
     teleportThreshold := teleportThreshold0 |}.

Definition updateConfig (this : CursorSmoother) (config0 : SpringConfig)
    : CursorSmoother :=
  {| spring := spring this;
     config := config0;
     lastRawPosition := lastRawPosition this;
     teleportThreshold := teleportThreshold this |}.

Definition setTeleportThreshold (this : CursorSmoother) (threshold : R)
    : CursorSmoother :=
  {| spring := spring this;
     config := config this;
     lastRawPosition := lastRawPosition this;
     teleportThreshold := threshold |}.

(** The first half of [update]: the spring the step starts from, the
    object's own unless a teleport is detected. *)
Definition detectTeleport (this : CursorSmoother) (raw : MouseMoveEvent)
    : Spring2DState :=
  match lastRawPosition this with
  | Some (lastX, lastY) =>
      let dx := x raw - lastX in
      let dy := y raw - lastY in
      let distance := sqrt (dx * dx + dy * dy) in
      if num_gt distance (teleportThreshold this)
      then createSpring2D (x raw) (y raw)
      else spring this
  | None => spring this
  end.

(** [update(raw, dt)]: the object after the call and the returned
    position.  The step is taken whether or not a teleport was detected. *)
Definition update (this : CursorSmoother) (raw : MouseMoveEvent) (dt : R)
    : CursorSmoother * SmoothedPosition :=
  let spring0 := detectTeleport this raw in
  let spring1 := stepSpring2D spring0 (x raw) (y raw) (config this) dt in
  ({| spring := spring1;
      config := config this;
      lastRawPosition := Some (x raw, y raw);
      teleportThreshold := teleportThreshold this |},
   {| smoothedX := position (Spring.x spring1);
      smoothedY := position (Spring.y spring1);
      rawX := x raw;
      rawY := y raw;
      smoothedCursorId := cursorId raw |}).

Definition reset (this : CursorSmoother) (x0 y0 : R) : CursorSmoother :=
  {| spring := createSpring2D x0 y0;
     config := config this;
     lastRawPosition := Some (x0, y0);
     teleportThreshold := teleportThreshold this |}.

Definition getCurrentPosition (this : CursorSmoother) : R * R :=
  (position (Spring.x (spring this)), position (Spring.y (spring this))).

Definition getCurrentVelocity (this : CursorSmoother) : R * R :=
  (velocity (Spring.x (spring this)), velocity (Spring.y (spring this))).

Definition createCursorSmoother (enabled : bool)
    (config0 : option SpringConfig) : option CursorSmoother :=
  if negb enabled then None
  else Some (newCursorSmoother
               (match config0 with
                | Some c => c
                | None => DEFAULT_SPRING_CONFIG
                end)
               DEFAULT_TELEPORT_THRESHOLD).

(** The inner [while] loop of [smoothMouseMoves]:
    [while (rawIndex + 1 < moves.length &&
            moves[rawIndex + 1].processTimeMs <= frameTimeMs) rawIndex++]. *)
Equations? findRawIndex (moves : list MouseMoveEvent) (frameTimeMs : R)
    (rawIndex : nat) : nat by wf (List.length moves - rawIndex)%nat lt :=
  findRawIndex moves frameTimeMs rawIndex
    with lt_dec (rawIndex + 1) (List.length moves) => {
    | right _ := rawIndex
    | left _ with nth_error moves (rawIndex + 1) => {
      | None := rawIndex
      | Some next with num_le (processTimeMs next) frameTimeMs => {
        | true := findRawIndex moves frameTimeMs (rawIndex + 1)
        | false := rawIndex } } }.
Proof. lia. Qed.

(** The [for] loop of [smoothMouseMoves], with [n] iterations left: the
    body for [frame], then the rest.  [moves[rawIndex]] out of range is
    [undefined], whose [x] raises. *)
Fixpoint frameLoop (moves : list MouseMoveEvent) (frameDurationMs : R)
    (n frame rawIndex : nat) (smoother : CursorSmoother)
    (result : list SmoothedPosition) : outcome (list SmoothedPosition) :=
  match n with
  | O => Returns result
  | S n' =>
      let frameTimeMs := INR frame * frameDurationMs in
      let rawIndex' := findRawIndex moves frameTimeMs rawIndex in
      match nth_error moves rawIndex' with
      | None => Throws TypeError
      | Some raw =>
          let dt := frameDurationMs / 1000 in
          let '(smoother', smoothed) :=
            update smoother
              {| x := x raw;
                 y := y raw;
                 cursorId := cursorId raw;
                 processTimeMs := frameTimeMs |}
              dt in
          frameLoop moves frameDurationMs n' (S frame) rawIndex' smoother'
            (result ++ [smoothed])
      end
  end.

(** [Math.max(1, Math.ceil(totalDurationMs / frameDurationMs))]. *)
Definition frameCountOf (totalDurationMs frameDurationMs : R) : Z :=
  Z.max 1 (Zceil (totalDurationMs / frameDurationMs)).

Definition smoothMouseMoves (moves : list MouseMoveEvent)
    (config0 : SpringConfig) (outputFps : R)
    : outcome (list SmoothedPosition) :=
  if Nat.eqb (List.length moves) 0 then Returns []
  else
    let frameDurationMs := 1000 / outputFps in
    match nth_error moves (List.length moves - 1) with
    | None => Throws TypeError
    | Some lastMove =>
        let totalDurationMs := processTimeMs lastMove in
        let frameCount := frameCountOf totalDurationMs frameDurationMs in
        let smoother := newCursorSmoother config0 DEFAULT_TELEPORT_THRESHOLD in
        match nth_error moves 0 with
        | None => Throws TypeError
        | Some first =>
            let smoother := reset smoother (x first) (y first) in
            frameLoop moves frameDurationMs (Z.to_nat frameCount) 0 0
              smoother []
        end
    end.

End CursorSmoothing.

(** * CursorOverlay.tsx *)

Module CursorOverlay.

Record Scale : Type := mkScale {
  scale : R;
  offsetX : R;
  offsetY : R
}.

(** Calculate the scale factor to fit video in container while maintaining
    aspect ratio. *)
Definition calculateScale (videoWidth videoHeight containerWidth
    containerHeight : R) : Scale :=
  if num_eq videoWidth 0 || num_eq videoHeight 0
  then {| scale := 1; offsetX := 0; offsetY := 0 |}
  else
    let scaleX := containerWidth / videoWidth in
    let scaleY := containerHeight / videoHeight in
    let scale0 := Rmin scaleX scaleY in
    let scaledWidth := videoWidth * scale0 in
    let scaledHeight := videoHeight * scale0 in
    let offsetX0 := (containerWidth - scaledWidth) / 2 in
    let offsetY0 := (containerHeight - scaledHeight) / 2 in
    {| scale := scale0; offsetX := offsetX0; offsetY := offsetY0 |}.

End CursorOverlay.

(** * The batch resampler, frame by frame

    The frame loop of [smoothMouseMoves] taken apart: the index its scan
    leaves in [rawIndex] at each frame, the sample read there, and the
    calls of [update] on these targets, each on the object the previous
    call left, with the fixed [dt = (1000 / outputFps) / 1000] seconds. *)

Module Incremental.

Import Spring CursorSmoothing.

(** The index of the raw sample that is the target of output frame
    [frame], as the loop computes it: the scan of a frame starts where
    the scan of the frame before stopped, and advances over the next
    sample while its [processTimeMs] is at most the frame's time. *)
Fixpoint frameRawIndex (moves : list MouseMoveEvent) (frameDurationMs : R)
    (frame : nat) : nat :=
  findRawIndex moves (INR frame * frameDurationMs)
    (match frame with
     | O => O
     | S previous => frameRawIndex moves frameDurationMs previous
     end).

(** The index a frame's scan starts from: where the previous frame left
    it. *)
Definition scanStart (moves : list MouseMoveEvent) (frameDurationMs : R)
    (frame : nat) : nat :=
  match frame with
  | O => O
  | S previous => frameRawIndex moves frameDurationMs previous
  end.

Definition frameTarget (first : MouseMoveEvent)
    (rest : list MouseMoveEvent) (frameDurationMs : R) (frame : nat)
    : MouseMoveEvent :=
  nth (frameRawIndex (first :: rest) frameDurationMs frame) (first :: rest)
    first.

(** The scan of one frame started on the first sample, as a function of
    the stream: going through the samples in order from [current], the
    last one reached before a sample later than [frameTimeMs]. *)
Fixpoint nearestPreceding (current : MouseMoveEvent)
    (rest : list MouseMoveEvent) (frameTimeMs : R) : MouseMoveEvent :=
  match rest with
  | [] => current
  | next :: rest' =>
      if num_le (processTimeMs next) frameTimeMs
      then nearestPreceding next rest' frameTimeMs
      else current
  end.

(** One [update] per target, each on the object the previous one left. *)
Fixpoint drive (smoother : CursorSmoother) (dt : R)
    (targets : list MouseMoveEvent) : list SmoothedPosition :=
  match targets with
  | [] => []
  | raw :: targets' =>
      let '(smoother', smoothed) := update smoother raw dt in
      smoothed :: drive smoother' dt targets'
  end.

Definition incrementalTrajectory (first : MouseMoveEvent)
    (rest : list MouseMoveEvent) (config0 : SpringConfig) (outputFps : R)
    : list SmoothedPosition :=
  let frameDurationMs := 1000 / outputFps in
  let frameCount :=
    frameCountOf (processTimeMs (last rest first)) frameDurationMs in
  let smoother :=
    reset (newCursorSmoother config0 DEFAULT_TELEPORT_THRESHOLD)
      (x first) (y first) in
  drive smoother (frameDurationMs / 1000)
    (map (frameTarget first rest frameDurationMs)
       (seq 0 (Z.to_nat frameCount))).

(** The frame of a spring that rests on [sample]. *)
Definition restingOn (sample : MouseMoveEvent) : SmoothedPosition :=
  {| smoothedX := x sample; smoothedY := y sample;
     rawX := x sample; rawY := y sample;
     smoothedCursorId := cursorId sample |}.

(** The raw stream is ordered by [processTimeMs] (non-decreasing). *)
Definition timeOrdered (moves : list MouseMoveEvent) : Prop :=
  StronglySorted (fun a b => processTimeMs a <= processTimeMs b) moves.

End Incremental.

(** * The incremental mode, in the specification's words

    These definitions follow the specification, not the code.  The
    nearest-preceding sample of a frame is "the latest raw sample not after
    the output frame's time"; the incremental trajectory is that of "a
    fresh CursorSmoother, reset to the first sample's position, [with]
    update [called] once per output frame with that frame's
    nearest-preceding target sample and fixed dt". *)

Module SpecResample.

Import Spring CursorSmoothing Incremental.

(** The latest sample of the stream whose [processTimeMs] is at most
    [frameTimeMs]; there is none when every sample is later. *)
Fixpoint nearestPrecedingSample (moves : list MouseMoveEvent)
    (frameTimeMs : R) : option MouseMoveEvent :=
  match moves with
  | [] => None
  | sample :: later =>
      match nearestPrecedingSample later frameTimeMs with
      | Some found => Some found
      | None =>
          if num_le (processTimeMs sample) frameTimeMs then Some sample
          else None
      end
  end.

(** The nearest-preceding samples of the given frames, when each frame
    has one. *)
Fixpoint specTargets (moves : list MouseMoveEvent) (frameDurationMs : R)
    (frames : list nat) : option (list MouseMoveEvent) :=
  match frames with
  | [] => Some []
  | frame :: frames' =>
      match nearestPrecedingSample moves (INR frame * frameDurationMs),
            specTargets moves frameDurationMs frames' with
      | Some target, Some targets => Some (target :: targets)
      | _, _ => None
      end
  end.

(** The fresh smoother, reset to the first sample's position. *)
Definition freshSmoother (first : MouseMoveEvent) (config0 : SpringConfig)
    : CursorSmoother :=
  reset (newCursorSmoother config0 DEFAULT_TELEPORT_THRESHOLD)
    (x first) (y first).

(** The incremental trajectory over [frameCount] output frames; it is
    defined when every frame has a nearest-preceding sample. *)
Definition specTrajectory (first : MouseMoveEvent)
    (rest : list MouseMoveEvent) (config0 : SpringConfig) (outputFps : R)
    (frameCount : nat) : option (list SmoothedPosition) :=
  let frameDurationMs := 1000 / outputFps in
  option_map (drive (freshSmoother first config0) (frameDurationMs / 1000))
    (specTargets (first :: rest) frameDurationMs (seq 0 frameCount)).

(** The amended target: the nearest-preceding sample, and the first
    sample for a frame that is earlier than every sample. *)
Definition nearestPrecedingOrFirst (first : MouseMoveEvent)
    (rest : list MouseMoveEvent) (frameTimeMs : R) : MouseMoveEvent :=
  match nearestPrecedingSample (first :: rest) frameTimeMs with
  | Some target => target
  | None => first
  end.

Definition amendedTrajectory (first : MouseMoveEvent)
    (rest : list MouseMoveEvent) (config0 : SpringConfig) (outputFps : R)
    (frameCount : nat) : list SmoothedPosition :=
  let frameDurationMs := 1000 / outputFps in
  drive (freshSmoother first config0) (frameDurationMs / 1000)
    (map (fun frame =>
            nearestPrecedingOrFirst first rest (INR frame * frameDurationMs))
       (seq 0 frameCount)).

End SpecResample.

(** * Repeated stepping

    What a caller's animation loop does with an unchanged target: the 2-D
    step, or [update] with the same event, once per tick; and what a
    frame of the batch output tells about the stream. *)

Module Repeated.

Import Spring CursorSmoothing.

Fixpoint stepSpring2DN (n : nat) (state : Spring2DState)
    (targetX targetY : R) (config : SpringConfig) (dt : R) : Spring2DState :=
  match n with
  | O => state
  | S n' =>
      stepSpring2DN n' (stepSpring2D state targetX targetY config dt)
        targetX targetY config dt
  end.

(** [n] calls [this.update(raw, dt)] in a row; the object after the last. *)
Fixpoint updateN (n : nat) (this : CursorSmoother) (raw : MouseMoveEvent)
    (dt : R) : CursorSmoother :=
  match n with
  | O => this
  | S n' => updateN n' (fst (update this raw dt)) raw dt
  end.

(** The frame [smoothed] reports the sample at [rawIndex] of [moves]. *)
Definition reports (moves : list MouseMoveEvent) (rawIndex : nat)
    (smoothed : SmoothedPosition) : Prop :=
  exists sample,
    nth_error moves rawIndex = Some sample /\
    rawX smoothed = x sample /\ rawY smoothed = y sample /\
    smoothedCursorId smoothed = cursorId sample.

End Repeated.

(** * The CursorOverlay component

    [CursorOverlay] of [src/components/editor/CursorOverlay.tsx] is a
    function from its props to the elements it renders.  Of these the
    model keeps what depends on the props: which cursor element is drawn,
    the numbers put in the [style] and line attributes, and the rounded
    coordinates shown by the debug panel.  [convertFileSrc] is the
    function of the Tauri API that turns a file path into an asset URL;
    nothing is assumed about it. *)

Module OverlayComponent.

Import CursorSmoothing CursorOverlay.

(** [CursorInfo] of [src/types/recording]; the component reads
    [imagePath], [hotspotX] and [hotspotY]. *)
Record CursorInfo : Type := mkCursorInfo {
  id : string;
  imagePath : string;
  hotspotX : R;
  hotspotY : R;
  width : R;
  height : R
}.

(** [cursors] is an object used as a map from cursor ids; a missing key
    reads as [undefined] ([None]). *)
Record CursorOverlayProps : Type := mkCursorOverlayProps {
  position : option SmoothedPosition;
  cursors : string -> option CursorInfo;
  cursorSize : R;
  videoWidth : R;
  videoHeight : R;
  containerWidth : R;
  containerHeight : R;
  showDebug : bool
}.

(** The smoothed cursor: the [img] with its [src], [left], [top] and the
    factor of its [scale(...)] transform, or the fallback [svg] arrow with
    its [left], [top], [width] and [height]. *)
Inductive CursorElement : Type :=
| CursorImage (src : string) (left top transformScale : R)
| FallbackArrow (left top arrowWidth arrowHeight : R).

(** The debug elements: the raw position dot, the line from the raw to
    the smoothed position, and the info panel with its rounded
    coordinates. *)
Record DebugElements : Type := mkDebugElements {
  dotLeft : R;
  dotTop : R;
  lineX1 : R;
  lineY1 : R;
  lineX2 : R;
  lineY2 : R;
  infoLeft : R;
  infoTop : R;
  smoothLabel : Z * Z;
  rawLabel : Z * Z
}.

Record Overlay : Type := mkOverlay {
  cursorElement : CursorElement;
  debugElements : option DebugElements
}.

(** [Math.round]: the nearest integer, halves going up. *)
Definition Math_round (v : R) : Z := Zfloor (v + 1 / 2).

(** A string is truthy when it is not empty. *)
Definition truthy (s : string) : bool := negb (String.eqb s EmptyString).

Section Component.

Variable convertFileSrc : string -> string.

(** The memoized object [cursorImageUrls]: an entry for every cursor
    whose [imagePath] is not empty. *)
Definition cursorImageUrls (cursors0 : string -> option CursorInfo)
    (cursorId0 : string) : option string :=
  match cursors0 cursorId0 with
  | Some info =>
      if truthy (imagePath info) then Some (convertFileSrc (imagePath info))
      else None
  | None => None
  end.

Definition CursorOverlay (props : CursorOverlayProps) : option Overlay :=
  match position props with
  | None => None
  | Some position0 =>
      let cursorInfo := cursors props (smoothedCursorId position0) in
      let cursorImageUrl :=
        cursorImageUrls (cursors props) (smoothedCursorId position0) in
      let result :=
        calculateScale (videoWidth props) (videoHeight props)
          (containerWidth props) (containerHeight props) in
      let smoothedX0 := smoothedX position0 * scale result + offsetX result in
      let smoothedY0 := smoothedY position0 * scale result + offsetY result in
      let rawX0 := rawX position0 * scale result + offsetX result in
      let rawY0 := rawY position0 * scale result + offsetY result in
      let cursorScale := scale result * cursorSize props in
      let hotspotOffsetX :=
        match cursorInfo with
        | Some info => hotspotX info * cursorScale
        | None => 0
        end in
      let hotspotOffsetY :=
        match cursorInfo with
        | Some info => hotspotY info * cursorScale
        | None => 0
        end in
      let fallback :=
        FallbackArrow smoothedX0 smoothedY0
          (24 * cursorScale) (24 * cursorScale) in
      Some
        {| cursorElement :=
             match cursorImageUrl with
             | Some url =>
                 if truthy url
                 then CursorImage url
                        (smoothedX0 - hotspotOffsetX)
                        (smoothedY0 - hotspotOffsetY)
                        cursorScale
                 else fallback
             | None => fallback
             end;
           debugElements :=
             if showDebug props
             then Some
                    {| dotLeft := rawX0 - 6;
                       dotTop := rawY0 - 6;
                       lineX1 := rawX0;
                       lineY1 := rawY0;
                       lineX2 := smoothedX0;
                       lineY2 := smoothedY0;
                       infoLeft := smoothedX0 + 20;
                       infoTop := smoothedY0 - 10;
                       smoothLabel :=
                         (Math_round (smoothedX position0),
                          Math_round (smoothedY position0));
                       rawLabel :=
                         (Math_round (rawX position0),
                          Math_round (rawY position0)) |}
             else None |}
  end.

End Component.

(** The point of the container on which the cursor element puts the
    cursor's hotspot: the corner of the fallback arrow; for the image,
    which is scaled by [transformScale] about its top left corner, the
    corner moved by the hotspot times that factor. *)
Definition anchor (cursorInfo : option CursorInfo) (element : CursorElement)
    : R * R :=
  match element with
  | FallbackArrow l t _ _ => (l, t)
  | CursorImage _ l t transformScale =>
      match cursorInfo with
      | Some info =>
          (l + hotspotX info * transformScale,
           t + hotspotY info * transformScale)
      | None => (l, t)
      end
  end.

End OverlayComponent.

(** * Changes of coordinate

    The image of a spring state under [p |-> p * s + o]: positions are
    mapped, velocities scaled. *)

Definition mapState (s o : R) (state : Spring.SpringState)
    : Spring.SpringState :=
  {| Spring.position := Spring.position state * s + o;
     Spring.velocity := Spring.velocity state * s |}.

(** * Elapsed time as text

    [formatTime] of RecordingView.tsx ("mm:ss") and of the editor view
    ("m:ss"). *)

Module TimeFormat.

(** [Number.prototype.toString()] of an integer: its decimal digits,
    after a "-" when it is negative.  (JavaScript switches to exponent
    notation from 1e21 on; the model does not.) *)
Definition toString (z : Z) : string :=
  NilZero.string_of_int (Z.to_int z).

(** [s.padStart(2, "0")]. *)
Definition padStart2 (s : string) : string :=
  match String.length s with
  | O => "00"
  | S O => append "0" s
  | _ => s
  end.

(** RecordingView.tsx.  [Math.floor] of the quotient of two integers is
    [Z.div]; [%] takes the sign of the dividend, as [Z.rem] does. *)
Definition formatTime (ms : R) : string :=
  let totalSeconds := Zfloor (ms / 1000) in
  let minutes := (totalSeconds / 60)%Z in
  let seconds := Z.rem totalSeconds 60 in
  append (padStart2 (toString minutes))
    (append ":" (padStart2 (toString seconds))).

(** The editor view: the minutes are not padded. *)
Definition formatTimeEditor (ms : R) : string :=
  let totalSeconds := Zfloor (ms / 1000) in
  let minutes := (totalSeconds / 60)%Z in
  let seconds := Z.rem totalSeconds 60 in
  append (toString minutes) (append ":" (padStart2 (toString seconds))).

(** The character of a decimal digit. *)
Definition digit (n : nat) : Ascii.ascii := Ascii.ascii_of_nat (48 + n).

(** Two decimal digits. *)
Definition twoDigits (n : nat) : string :=
  String (digit (n / 10)) (String (digit (n mod 10)) EmptyString).

End TimeFormat.

(** * Frame stepping in the editor

    [handleFrameStep] of the editor view.  The callback reads the state
    variables [currentTime] and [duration] and the frame rate of the
    loaded bundle, and writes the video element's time (in seconds) and
    [currentTime] (in milliseconds); without a video element or a bundle
    it does nothing. *)

Module EditorView.

Inductive Direction : Type := back | forward.

(** What a call writes: [videoRef.current.currentTime] and the argument of
    [setCurrentTime]. *)
Record FrameStep : Type := mkFrameStep {
  videoCurrentTime : R;
  newCurrentTime : R
}.

(** [videoRef] tells whether [videoRef.current] is set; [fps] is
    [recordingBundle.videoMetadata.fps], [None] without a bundle.
    [Math.max] and [Math.min] are [Rmax] and [Rmin]. *)
Definition handleFrameStep (videoRef : bool) (fps : option R)
    (currentTime duration : R) (direction : Direction) : option FrameStep :=
  match videoRef, fps with
  | true, Some fps0 =>
      let frameTime := 1000 / fps0 in
      let newTime :=
        currentTime
        + match direction with
          | forward => frameTime
          | back => - frameTime
          end in
      let clampedTime := Rmax 0 (Rmin duration newTime) in
      Some {| videoCurrentTime := clampedTime / 1000;
              newCurrentTime := clampedTime |}
  | _, _ => None
  end.

(** [n] presses of the same button; [None] as soon as a call does
    nothing. *)
Fixpoint handleFrameStepN (n : nat) (videoRef : bool) (fps : option R)
    (currentTime duration : R) (direction : Direction) : option R :=
  match n with
  | O => Some currentTime
  | S n' =>
      match handleFrameStep videoRef fps currentTime duration direction with
      | Some step =>
          handleFrameStepN n' videoRef fps (newCurrentTime step) duration
            direction
      | None => None
      end
  end.

End EditorView.

(** * Properties *)

(** ** Comparisons *)

Lemma num_lt_true a b : num_lt a b = true <-> a < b.
Proof. unfold num_lt; destruct (Rlt_dec a b); split; intros; try easy. Qed.

Lemma num_lt_false a b : num_lt a b = false <-> b <= a.
Proof.
  unfold num_lt; destruct (Rlt_dec a b); split; intros; try easy; lra.
Qed.

Lemma num_le_true a b : num_le a b = true <-> a <= b.
Proof. unfold num_le; destruct (Rle_dec a b); split; intros; try easy. Qed.

Lemma num_le_false a b : num_le a b = false <-> b < a.
Proof.
  unfold num_le; destruct (Rle_dec a b); split; intros; try easy; lra.
Qed.

Lemma num_gt_true a b : num_gt a b = true <-> a > b.
Proof. unfold num_gt; rewrite num_lt_true; unfold Rgt; tauto. Qed.

Lemma num_gt_false a b : num_gt a b = false <-> a <= b.
Proof. unfold num_gt; apply num_lt_false. Qed.

Lemma num_eq_true a b : num_eq a b = true <-> a = b.
Proof. unfold num_eq; destruct (Req_dec_T a b); split; intros; try easy. Qed.

Lemma num_eq_false a b : num_eq a b = false <-> a <> b.
Proof. unfold num_eq; destruct (Req_dec_T a b); split; intros; try easy. Qed.


(** ** Sequences of reals that die out *)

Module RealSequences.

(** A geometric sequence of ratio below 1 gets under any positive
    bound. *)
Lemma geometric_small (C sigma eps : R) :
  0 <= C -> 0 <= sigma < 1 -> 0 < eps ->
  exists N, forall n, (N <= n)%nat -> C * sigma ^ n < eps.
Proof.
  intros HC Hs He.
  assert (Habs : Rabs sigma < 1) by (rewrite Rabs_pos_eq; lra).
  assert (Hy : 0 < eps / (C + 1)) by (apply Rdiv_lt_0_compat; lra).
  destruct (pow_lt_1_zero sigma Habs (eps / (C + 1)) Hy) as [N HN].
  exists N; intros n Hn.
  specialize (HN n Hn).
  rewrite Rabs_pos_eq in HN by (apply pow_le; lra).
  assert (Hp : 0 <= sigma ^ n) by (apply pow_le; lra).
  apply Rle_lt_trans with ((C + 1) * sigma ^ n); [nra |].
  apply Rlt_le_trans with ((C + 1) * (eps / (C + 1))).
  - apply Rmult_lt_compat_l; lra.
  - right; field; lra.
Qed.

Lemma geometric_tendsToZero (u : nat -> R) (C sigma : R) :
  0 <= C -> 0 <= sigma < 1 ->
  (forall n, Rabs (u n) <= C * sigma ^ n) ->
  tendsToZero u.
Proof.
  intros HC Hs Hu eps He.
  destruct (geometric_small C sigma eps HC Hs He) as [N HN].
  exists N; intros n Hn.
  apply Rle_lt_trans with (C * sigma ^ n); auto.
Qed.

Lemma abs_lt_of_sqr_lt (a eps : R) : 0 < eps -> a * a < eps * eps -> Rabs a < eps.
Proof.
  intros He Hsq; apply Rabs_def1; nra.
Qed.

(** A sequence with [u (n+2) = T * u (n+1) - D * u n] tends to zero as
    soon as [|D| < 1] and [|T| < 1 + D], the conditions that put both
    roots of [z^2 - T z + D] inside the unit disc.  With real roots
    [l1], [l2] the sequence [u (n+1) - l1 * u n] is geometric of ratio
    [l2], and [|u n| + K |u (n+1) - l1 * u n|] shrinks by a fixed factor
    at every step; with complex roots the quadratic form
    [u (n+1)^2 - T u (n+1) u n + D (u n)^2] is positive definite and is
    multiplied by [D] at every step. *)
Section SecondOrderRecurrence.

Variable u : nat -> R.

(** Two real roots inside the unit interval. *)
Section RealRoots.

Variables l1 l2 : R.
Hypothesis Hl1 : Rabs l1 < 1.
Hypothesis Hl2 : Rabs l2 < 1.
Hypothesis Hu :
  forall n, u (S (S n)) = (l1 + l2) * u (S n) - l1 * l2 * u n.

Let y (n : nat) : R := u (S n) - l1 * u n.

Lemma real_roots_y_step n : y (S n) = l2 * y n.
Proof. unfold y; rewrite Hu; ring. Qed.

Let rho : R := Rmax (Rabs l1) (Rabs l2).
Let sigma : R := (1 + rho) / 2.
Let K : R := 2 / (1 - rho).
Let U (n : nat) : R := Rabs (u n) + K * Rabs (y n).

Lemma real_roots_rho : 0 <= rho < 1.
Proof.
  unfold rho; split.
  - apply Rle_trans with (Rabs l1); [apply Rabs_pos | apply Rmax_l].
  - now apply Rmax_lub_lt.
Qed.

Lemma real_roots_U_step n : U (S n) <= sigma * U n.
Proof.
  pose proof real_roots_rho as Hr.
  assert (H1 : Rabs l1 <= rho) by apply Rmax_l.
  assert (H2 : Rabs l2 <= rho) by apply Rmax_r.
  assert (HK : 0 < K) by (apply Rdiv_lt_0_compat; lra).
  assert (HKs : K * sigma = 1 + K * rho).
  { unfold K, sigma; field; lra. }
  unfold U.
  assert (Hu1 : Rabs (u (S n)) <= rho * Rabs (u n) + Rabs (y n)).
  { replace (u (S n)) with (l1 * u n + y n) by (unfold y; ring).
    eapply Rle_trans; [apply Rabs_triang |].
    rewrite Rabs_mult.
    pose proof (Rabs_pos (u n)); nra. }
  assert (Hy1 : Rabs (y (S n)) <= rho * Rabs (y n)).
  { rewrite real_roots_y_step, Rabs_mult.
    pose proof (Rabs_pos (y n)); nra. }
  pose proof (Rabs_pos (u n)) as Pu.
  pose proof (Rabs_pos (y n)) as Py.
  assert (Hs : rho <= sigma) by (unfold sigma; lra).
  apply Rle_trans
    with (rho * Rabs (u n) + Rabs (y n) + K * (rho * Rabs (y n))).
  - apply Rplus_le_compat; [exact Hu1 |].
    apply Rmult_le_compat_l; [lra | exact Hy1].
  - replace (sigma * (Rabs (u n) + K * Rabs (y n)))
      with (sigma * Rabs (u n) + (K * sigma) * Rabs (y n)) by ring.
    rewrite HKs; nra.
Qed.

Lemma real_roots_tendsToZero : tendsToZero u.
Proof.
  pose proof real_roots_rho as Hr.
  assert (HK : 0 < K) by (apply Rdiv_lt_0_compat; lra).
  assert (Hsig : 0 <= sigma < 1) by (unfold sigma; lra).
  assert (HU0 : 0 <= U 0).
  { unfold U; pose proof (Rabs_pos (u 0)); pose proof (Rabs_pos (y 0)).
    nra. }
  apply (geometric_tendsToZero u (U 0) sigma HU0 Hsig).
  assert (HU : forall n, U n <= U 0 * sigma ^ n).
  { induction n as [| n IH]; [simpl; lra |].
    eapply Rle_trans; [apply real_roots_U_step |].
    simpl; nra. }
  intros n; eapply Rle_trans; [| apply HU].
  unfold U; pose proof (Rabs_pos (y n)); nra.
Qed.

End RealRoots.

Variables T D : R.
Hypothesis HD : Rabs D < 1.
Hypothesis HT : Rabs T < 1 + D.
Hypothesis Hu : forall n, u (S (S n)) = T * u (S n) - D * u n.

Let q (n : nat) : R := u (S n) * u (S n) - T * u (S n) * u n + D * (u n * u n).

Lemma recurrence_q_step n : q (S n) = D * q n.
Proof. unfold q; rewrite Hu; ring. Qed.

Lemma recurrence_q_pow n : q n = q 0 * D ^ n.
Proof.
  induction n as [| n IH]; [simpl; ring |].
  rewrite recurrence_q_step, IH; simpl; ring.
Qed.

Lemma recurrence_q_lower n : (D - T * T / 4) * (u n * u n) <= q n.
Proof.
  unfold q.
  pose proof (Rle_0_sqr (u (S n) - T * u n / 2)) as Hsq.
  unfold Rsqr in Hsq; nra.
Qed.

Lemma complex_roots_tendsToZero : T * T < 4 * D -> tendsToZero u.
Proof.
  intros Hdisc eps He.
  assert (HDpos : 0 <= D < 1).
  { apply Rabs_def2 in HD; nra. }
  assert (Hdelta : 0 < D - T * T / 4) by lra.
  assert (Hq0 : 0 <= q 0).
  { pose proof (recurrence_q_lower 0) as H0.
    pose proof (Rle_0_sqr (u 0)) as Hs; unfold Rsqr in Hs; nra. }
  assert (He2 : 0 < (D - T * T / 4) * (eps * eps)).
  { apply Rmult_lt_0_compat; [lra | apply Rmult_lt_0_compat; lra]. }
  destruct (geometric_small (q 0) D _ Hq0 HDpos He2) as [N HN].
  exists N; intros n Hn.
  apply abs_lt_of_sqr_lt; [assumption |].
  specialize (HN n Hn); rewrite <- recurrence_q_pow in HN.
  pose proof (recurrence_q_lower n) as Hl.
  nra.
Qed.

Lemma recurrence_tendsToZero : tendsToZero u.
Proof.
  destruct (Rlt_dec (T * T) (4 * D)) as [Hc | Hr];
    [now apply complex_roots_tendsToZero |].
  apply Rnot_lt_le in Hr.
  apply Rabs_def2 in HD, HT.
  set (s := sqrt (T * T - 4 * D)).
  assert (Hs0 : 0 <= s) by apply sqrt_pos.
  assert (Hss : s * s = T * T - 4 * D) by (apply sqrt_sqrt; lra).
  assert (Hs1 : s < 2 - T) by nra.
  assert (Hs2 : s < 2 + T) by nra.
  apply (real_roots_tendsToZero ((T + s) / 2) ((T - s) / 2)).
  - apply Rabs_def1; lra.
  - apply Rabs_def1; lra.
  - intros n; rewrite Hu.
    replace ((T + s) / 2 + (T - s) / 2) with T by field.
    replace ((T + s) / 2 * ((T - s) / 2)) with ((T * T - s * s) / 4)
      by field.
    rewrite Hss; f_equal; field.
Qed.

End SecondOrderRecurrence.

End RealSequences.

(** ** The spring model *)

Module SpringFacts.

Import Spring RealSequences.

Lemma stepSpring_velocity state target config dt :
  velocity (stepSpring state target config dt)
  = velocity state
    + (- stiffness config * (position state - target)
       + - damping config * velocity state) / mass config * dt.
Proof. reflexivity. Qed.

Lemma stepSpring_position state target config dt :
  position (stepSpring state target config dt)
  = position state + velocity (stepSpring state target config dt) * dt.
Proof. reflexivity. Qed.

(** A spring at rest on its target stays there, whatever the config. *)
Lemma stepSpring_at_rest p config dt :
  stepSpring (createSpringState p) p config dt = createSpringState p.
Proof.
  unfold stepSpring, createSpringState; simpl.
  f_equal; unfold Rdiv; ring.
Qed.

Lemma stepSpring2D_at_rest px py config dt :
  stepSpring2D (createSpring2D px py) px py config dt = createSpring2D px py.
Proof.
  unfold stepSpring2D, createSpring2D; simpl.
  now rewrite !stepSpring_at_rest.
Qed.

(** C4. Spring step definition: [stepSpring] returns the state given by
    displacement = position - target, springForce = -stiffness *
    displacement, dampingForce = -damping * velocity, acceleration =
    (springForce + dampingForce) / mass, velocity' = velocity +
    acceleration * dt and position' = position + velocity' * dt; the
    position update uses the velocity already updated (semi-implicit
    Euler), so the new position already holds the acceleration's
    contribution acceleration * dt * dt. *)
Theorem stepSpring_semi_implicit_euler (state : SpringState) (target : R)
    (config : SpringConfig) (dt : R) :
  exists displacement springForce dampingForce acceleration,
    displacement = position state - target /\
    springForce = - stiffness config * displacement /\
    dampingForce = - damping config * velocity state /\
    acceleration = (springForce + dampingForce) / mass config /\
    velocity (stepSpring state target config dt)
      = velocity state + acceleration * dt /\
    position (stepSpring state target config dt)
      = position state + velocity (stepSpring state target config dt) * dt /\
    position (stepSpring state target config dt)
      = position state + velocity state * dt + acceleration * dt * dt.
Proof.
  exists (position state - target).
  exists (- stiffness config * (position state - target)).
  exists (- damping config * velocity state).
  exists ((- stiffness config * (position state - target)
           + - damping config * velocity state) / mass config).
  repeat split.
  rewrite stepSpring_position, stepSpring_velocity; ring.
Qed.

Lemma stepSpringN_S n :
  forall state target config dt,
    stepSpringN (S n) state target config dt
    = stepSpring (stepSpringN n state target config dt) target config dt.
Proof.
  induction n as [| n IH]; intros state target config dt; [reflexivity |].
  change (stepSpringN (S (S n)) state target config dt)
    with (stepSpringN (S n) (stepSpring state target config dt)
            target config dt).
  rewrite IH; reflexivity.
Qed.

(** Convergence.  With [a = damping * dt / mass] and
    [b = stiffness * dt^2 / mass], the displacement [d] from the target
    and the distance [w = velocity * dt] travelled per step satisfy
    [w' = (1 - a) w - b d] and [d' = d + w'], so each of them obeys the
    recurrence of trace [2 - a - b] and determinant [1 - a]. *)
Section SpringConvergence.

Variable config : SpringConfig.
Variables target dt : R.
Variable state0 : SpringState.

Hypothesis Hstiffness : 0 < stiffness config.
Hypothesis Hdamping : 0 < damping config.
Hypothesis Hmass : 0 < mass config.
Hypothesis Hdt : 0 < dt.
Hypothesis Hstable :
  dt * (stiffness config * dt + 2 * damping config) < 4 * mass config.

(** Damping and stiffness per step, the displacement and the distance
    travelled per step after [n] steps. *)
Let a : R := damping config * dt / mass config.
Let b : R := stiffness config * dt * dt / mass config.
Let d (n : nat) : R :=
  position (stepSpringN n state0 target config dt) - target.
Let w (n : nat) : R :=
  velocity (stepSpringN n state0 target config dt) * dt.

Lemma spring_w_step n : w (S n) = (1 - a) * w n - b * d n.
Proof.
  unfold w, d, a, b; rewrite stepSpringN_S, stepSpring_velocity.
  field; lra.
Qed.

Lemma spring_d_step n : d (S n) = d n + w (S n).
Proof.
  unfold w, d; rewrite stepSpringN_S, stepSpring_position.
  rewrite <- stepSpringN_S; ring.
Qed.

Lemma spring_d_recurrence n :
  d (S (S n)) = (2 - a - b) * d (S n) - (1 - a) * d n.
Proof.
  rewrite (spring_d_step (S n)), (spring_w_step (S n)).
  rewrite (spring_d_step n), (spring_w_step n).
  ring.
Qed.

Lemma spring_w_recurrence n :
  w (S (S n)) = (2 - a - b) * w (S n) - (1 - a) * w n.
Proof.
  rewrite (spring_w_step (S n)), (spring_d_step n), (spring_w_step n).
  ring.
Qed.

Lemma spring_stable_region : 0 < a /\ 0 < b /\ 2 * a + b < 4.
Proof.
  unfold a, b; repeat split.
  - apply Rdiv_lt_0_compat; [apply Rmult_lt_0_compat |]; lra.
  - apply Rdiv_lt_0_compat; [| lra].
    repeat apply Rmult_lt_0_compat; lra.
  - apply Rmult_lt_reg_r with (mass config); [lra |].
    replace ((2 * (damping config * dt / mass config)
              + stiffness config * dt * dt / mass config) * mass config)
      with (dt * (stiffness config * dt + 2 * damping config))
      by (field; lra).
    lra.
Qed.

Lemma spring_displacement_tendsToZero : tendsToZero d.
Proof.
  destruct spring_stable_region as (Ha & Hb & Hab).
  apply (recurrence_tendsToZero d (2 - a - b) (1 - a)).
  - apply Rabs_def1; lra.
  - apply Rabs_def1; lra.
  - apply spring_d_recurrence.
Qed.

Lemma spring_travel_tendsToZero : tendsToZero w.
Proof.
  destruct spring_stable_region as (Ha & Hb & Hab).
  apply (recurrence_tendsToZero w (2 - a - b) (1 - a)).
  - apply Rabs_def1; lra.
  - apply Rabs_def1; lra.
  - apply spring_w_recurrence.
Qed.

End SpringConvergence.

(** C6 as stated fails: the valid config stiffness 1, damping 0, mass 1
    with dt = 1, released at rest at position 1 with target 0, cycles
    through (1,0), (0,-1), (-1,-1), (-1,0), (0,1), (1,1) for ever: the
    quantity position^2 - position * velocity + velocity^2 stays 1, so
    the spring is never settled. *)
Lemma spring_convergence_counterexample :
  let config := {| stiffness := 1; damping := 0; mass := 1 |} in
  0 < stiffness config /\ 0 <= damping config /\ 0 < mass config /\
  forall n,
    isSpringSettled (stepSpringN n (createSpringState 1) 0 config 1) 0
      DEFAULT_SETTLE_THRESHOLD
    = false.
Proof.
  intros config; repeat split; try (simpl; lra).
  intros n.
  set (s := stepSpringN n (createSpringState 1) 0 config 1).
  assert (Hinv : position s * position s - position s * velocity s
                 + velocity s * velocity s = 1).
  { subst s; induction n as [| n IH]; [simpl; lra |].
    rewrite stepSpringN_S.
    rewrite stepSpring_position, stepSpring_velocity; simpl.
    nra. }
  unfold isSpringSettled, DEFAULT_SETTLE_THRESHOLD.
  apply andb_false_iff.
  destruct (Rlt_dec (Rabs (position s - 0)) (1 / 10)) as [Hp | Hp];
    [right | left; apply num_lt_false; lra].
  apply num_lt_false.
  destruct (Rle_dec (1 / 10) (Rabs (velocity s))) as [Hv | Hv];
    [assumption | exfalso].
  apply Rnot_le_lt in Hv.
  apply Rabs_def2 in Hp, Hv; nra.
Qed.

(** C6, as the code has it: for every config with stiffness > 0,
    damping > 0 and mass > 0, every fixed target, every positive
    threshold, and stepping from rest with a fixed positive dt small
    enough that dt * (stiffness * dt + 2 * damping) < 4 * mass, there is
    a number of steps after which [isSpringSettled] is true and remains
    true under all further stepping with the unchanged target. *)
Theorem stepSpring_settles (config : SpringConfig)
    (target initial dt threshold : R)
    (Hstiffness : 0 < stiffness config)
    (Hdamping : 0 < damping config)
    (Hmass : 0 < mass config)
    (Hdt : 0 < dt)
    (Hthreshold : 0 < threshold)
    (Hstable :
       dt * (stiffness config * dt + 2 * damping config) < 4 * mass config) :
  exists N, forall n, (N <= n)%nat ->
    isSpringSettled
      (stepSpringN n (createSpringState initial) target config dt)
      target threshold
    = true.
Proof.
  destruct (spring_displacement_tendsToZero config target dt
              (createSpringState initial) Hstiffness Hdamping Hmass Hdt
              Hstable threshold Hthreshold) as [N1 H1].
  assert (Hthreshold' : 0 < threshold * dt)
    by (apply Rmult_lt_0_compat; lra).
  destruct (spring_travel_tendsToZero config target dt
              (createSpringState initial) Hstiffness Hdamping Hmass Hdt
              Hstable (threshold * dt) Hthreshold') as [N2 H2].
  exists (Nat.max N1 N2); intros n Hn.
  unfold isSpringSettled; apply andb_true_intro; split; apply num_lt_true.
  - apply (H1 n); lia.
  - specialize (H2 n ltac:(lia)).
    rewrite Rabs_mult, (Rabs_pos_eq dt) in H2 by lra.
    apply Rmult_lt_reg_r with dt; assumption.
Qed.

(** The default config stepped 60 times a second, from rest at 0 toward
    100, with the default threshold. *)
Lemma stepSpring_settles_witness :
  exists N, forall n, (N <= n)%nat ->
    isSpringSettled
      (stepSpringN n (createSpringState 0) 100 DEFAULT_SPRING_CONFIG (1 / 60))
      100 DEFAULT_SETTLE_THRESHOLD
    = true.
Proof.
  apply stepSpring_settles;
    unfold DEFAULT_SPRING_CONFIG, DEFAULT_SETTLE_THRESHOLD; simpl; lra.
Defined.

(** Outside that region the spring need not settle.  The default config
    stepped 30 times a second (the default rate of [smoothMouseMoves]) is
    outside it: released at 0 toward 100 it is at 800/9 after one step
    and at -4000/81, beyond its starting point, after two. *)
Example default_config_at_30fps :
  ~ (1 / 30 * (stiffness DEFAULT_SPRING_CONFIG * (1 / 30)
               + 2 * damping DEFAULT_SPRING_CONFIG)
     < 4 * mass DEFAULT_SPRING_CONFIG) /\
  position (stepSpringN 1 (createSpringState 0) 100 DEFAULT_SPRING_CONFIG
              (1 / 30)) = 800 / 9 /\
  position (stepSpringN 2 (createSpringState 0) 100 DEFAULT_SPRING_CONFIG
              (1 / 30)) = - 4000 / 81.
Proof.
  repeat split; simpl; lra.
Qed.

End SpringFacts.

(** ** Fitting the video in the preview container *)

Module CursorOverlayFacts.

Import CursorOverlay.

Lemma calculateScale_zero_video vw vh cw ch :
  vw = 0 \/ vh = 0 ->
  calculateScale vw vh cw ch = {| scale := 1; offsetX := 0; offsetY := 0 |}.
Proof.
  intros H; unfold calculateScale.
  destruct H as [H | H]; apply num_eq_true in H; rewrite H;
    [reflexivity | now rewrite orb_true_r].
Qed.

Lemma calculateScale_nonzero_video vw vh cw ch :
  vw <> 0 -> vh <> 0 ->
  calculateScale vw vh cw ch
  = let s := Rmin (cw / vw) (ch / vh) in
    {| scale := s;
       offsetX := (cw - vw * s) / 2;
       offsetY := (ch - vh * s) / 2 |}.
Proof.
  intros Hw Hh; unfold calculateScale.
  apply num_eq_false in Hw, Hh; now rewrite Hw, Hh.
Qed.

(** The scaled video is no larger than the container. *)
Lemma scaled_video_fits vw vh cw ch :
  0 < vw -> 0 < vh ->
  vw * Rmin (cw / vw) (ch / vh) <= cw /\ vh * Rmin (cw / vw) (ch / vh) <= ch.
Proof.
  intros Hw Hh; split.
  - apply Rle_trans with (vw * (cw / vw)).
    + apply Rmult_le_compat_l; [lra | apply Rmin_l].
    + right; field; lra.
  - apply Rle_trans with (vh * (ch / vh)).
    + apply Rmult_le_compat_l; [lra | apply Rmin_r].
    + right; field; lra.
Qed.

(** C10. [calculateScale] is total and guarded against division by zero:
    when [videoWidth] or [videoHeight] is 0 it returns scale 1 with zero
    offsets, and for positive video and container dimensions it returns
    scale = min(containerWidth / videoWidth, containerHeight / videoHeight)
    with offsets that center the scaled video in the container (equal
    margins on both sides, none of them negative). *)
Theorem calculateScale_total_guarded_centered (videoWidth videoHeight
    containerWidth containerHeight : R) :
  exists result,
    calculateScale videoWidth videoHeight containerWidth containerHeight
      = result /\
    (videoWidth = 0 \/ videoHeight = 0 ->
       result = {| scale := 1; offsetX := 0; offsetY := 0 |}) /\
    (0 < videoWidth -> 0 < videoHeight ->
     0 < containerWidth -> 0 < containerHeight ->
       scale result
         = Rmin (containerWidth / videoWidth) (containerHeight / videoHeight) /\
       0 < scale result /\
       offsetX result = (containerWidth - videoWidth * scale result) / 2 /\
       offsetY result = (containerHeight - videoHeight * scale result) / 2 /\
       offsetX result + videoWidth * scale result + offsetX result
         = containerWidth /\
       offsetY result + videoHeight * scale result + offsetY result
         = containerHeight /\
       0 <= offsetX result /\ 0 <= offsetY result).
Proof.
  eexists; split; [reflexivity |]; split.
  - apply calculateScale_zero_video.
  - intros Hw Hh Hcw Hch.
    rewrite calculateScale_nonzero_video by lra; cbv zeta; simpl.
    destruct (scaled_video_fits videoWidth videoHeight containerWidth
                containerHeight Hw Hh) as [Fw Fh].
    assert (Hpos : 0 < Rmin (containerWidth / videoWidth)
                          (containerHeight / videoHeight)).
    { apply Rmin_glb_lt; apply Rdiv_lt_0_compat; assumption. }
    repeat split; try reflexivity; try assumption; lra.
Qed.

(** A 1920x1080 video in a 960x720 container: scale 1/2, no horizontal
    margin, 90 pixels above and below. *)
Lemma calculateScale_total_guarded_centered_witness :
  calculateScale 1920 1080 960 720
  = {| scale := 1 / 2; offsetX := 0; offsetY := 90 |}.
Proof.
  destruct (calculateScale_total_guarded_centered 1920 1080 960 720)
    as [r [Hr [_ H]]].
  destruct H as [Hs [_ [Hx [Hy _]]]]; try lra.
  rewrite Hr.
  assert (Hmin : Rmin (960 / 1920) (720 / 1080) = 1 / 2).
  { rewrite Rmin_left; lra. }
  rewrite Hmin in Hs.
  destruct r as [s ox oy]; simpl in *; subst s.
  f_equal; lra.
Defined.

End CursorOverlayFacts.

(** ** The cursor smoother and the batch resampler *)

Module CursorSmoothingFacts.

Import Spring CursorSmoothing Incremental SpecResample SpringFacts.

(** *** The scan for the frame's raw sample *)

Lemma findRawIndex_at_end moves t i :
  (List.length moves <= i + 1)%nat -> findRawIndex moves t i = i.
Proof.
  intros H; rewrite findRawIndex_equation_1.
  destruct (lt_dec (i + 1) (List.length moves)); [lia | reflexivity].
Qed.

Lemma findRawIndex_advance moves t i next :
  nth_error moves (i + 1) = Some next ->
  processTimeMs next <= t ->
  findRawIndex moves t i = findRawIndex moves t (i + 1).
Proof.
  intros Hn Ht; rewrite findRawIndex_equation_1.
  destruct (lt_dec (i + 1) (List.length moves)) as [Hl | Hl]; simpl.
  - rewrite Hn; simpl.
    apply num_le_true in Ht; rewrite Ht; reflexivity.
  - exfalso; apply Hl, nth_error_Some; congruence.
Qed.

Lemma findRawIndex_stay moves t i next :
  nth_error moves (i + 1) = Some next ->
  t < processTimeMs next ->
  findRawIndex moves t i = i.
Proof.
  intros Hn Ht; rewrite findRawIndex_equation_1.
  destruct (lt_dec (i + 1) (List.length moves)) as [Hl | Hl]; simpl.
  - rewrite Hn; simpl.
    apply num_le_false in Ht; rewrite Ht; reflexivity.
  - reflexivity.
Qed.

Lemma findRawIndex_ge moves t i : (i <= findRawIndex moves t i)%nat.
Proof.
  funelim (findRawIndex moves t i); try lia.
Qed.

(** The three ways through one test of the loop condition, as an
    induction principle on the scan. *)
Lemma findRawIndex_scan_ind (moves : list MouseMoveEvent) (t : R)
    (P : nat -> nat -> Prop) :
  (forall i, (List.length moves <= i + 1)%nat -> P i i) ->
  (forall i next,
     nth_error moves (i + 1) = Some next -> t < processTimeMs next ->
     P i i) ->
  (forall i next,
     nth_error moves (i + 1) = Some next -> processTimeMs next <= t ->
     P (i + 1)%nat (findRawIndex moves t (i + 1)) ->
     P i (findRawIndex moves t (i + 1))) ->
  forall i, P i (findRawIndex moves t i).
Proof.
  intros Hend Hstay Hadv i.
  remember (List.length moves - i)%nat as k eqn:Hk.
  revert i Hk; induction k as [k IH] using lt_wf_ind; intros i Hk.
  destruct (le_lt_dec (List.length moves) (i + 1)) as [Hl | Hl].
  - rewrite findRawIndex_at_end by assumption; auto.
  - destruct (nth_error moves (i + 1)) as [next |] eqn:Hn.
    + destruct (Rle_dec (processTimeMs next) t) as [Ht | Ht].
      * rewrite (findRawIndex_advance _ _ _ _ Hn Ht).
        apply (Hadv i next Hn Ht).
        apply (IH (List.length moves - (i + 1))%nat); lia.
      * apply Rnot_le_lt in Ht.
        rewrite (findRawIndex_stay _ _ _ _ Hn Ht); eauto.
    + apply nth_error_None in Hn; lia.
Qed.

Lemma findRawIndex_in_range moves t i :
  (i < List.length moves)%nat ->
  (findRawIndex moves t i < List.length moves)%nat.
Proof.
  apply (findRawIndex_scan_ind moves t
           (fun i r => (i < List.length moves -> r < List.length moves)%nat));
    try (intros; lia).
  intros j next Hn _ IH _; apply IH, nth_error_Some; congruence.
Qed.

(** On leaving the loop its condition is false: the next sample, when
    there is one, is later than the frame. *)
Lemma findRawIndex_exit moves t i next :
  nth_error moves (findRawIndex moves t i + 1) = Some next ->
  t < processTimeMs next.
Proof.
  revert next.
  apply (findRawIndex_scan_ind moves t
           (fun _ r => forall next,
              nth_error moves (r + 1) = Some next -> t < processTimeMs next)).
  - intros j Hl next Hn.
    assert (nth_error moves (j + 1) <> None) as Hs by congruence.
    apply nth_error_Some in Hs; lia.
  - intros j next' Hn' Ht next Hn; congruence.
  - auto.
Qed.

(** Every sample the loop stepped over is at or before the frame. *)
Lemma findRawIndex_passed moves t i j m :
  (i < j <= findRawIndex moves t i)%nat ->
  nth_error moves j = Some m ->
  processTimeMs m <= t.
Proof.
  revert j m.
  apply (findRawIndex_scan_ind moves t
           (fun i r => forall j m, (i < j <= r)%nat ->
              nth_error moves j = Some m -> processTimeMs m <= t)).
  - intros; lia.
  - intros; lia.
  - intros k next Hn Ht IH j m Hj Hm.
    destruct (Nat.eq_dec j (k + 1)) as [-> | Hne].
    + congruence.
    + apply (IH j m); [lia | assumption].
Qed.

(** A later frame resumes the scan where an earlier one left it. *)
Lemma findRawIndex_resume moves t t' i :
  t <= t' ->
  findRawIndex moves t' (findRawIndex moves t i) = findRawIndex moves t' i.
Proof.
  intros Ht.
  apply (findRawIndex_scan_ind moves t
           (fun i r => findRawIndex moves t' r = findRawIndex moves t' i)).
  - reflexivity.
  - reflexivity.
  - intros k next Hn Hle IH; rewrite IH.
    symmetry; apply (findRawIndex_advance _ _ _ next); [assumption | lra].
Qed.

(** The scan stops on the first sample or on one at or before the
    frame. *)
Lemma findRawIndex_from_start moves t m :
  nth_error moves (findRawIndex moves t 0) = Some m ->
  findRawIndex moves t 0 = 0%nat \/ processTimeMs m <= t.
Proof.
  intros Hm.
  destruct (Nat.eq_dec (findRawIndex moves t 0) 0) as [Hz | Hnz];
    [now left | right].
  apply (findRawIndex_passed moves t 0 (findRawIndex moves t 0) m);
    [lia | assumption].
Qed.

(** From the element at [List.length prefix] on, the scan by index reads
    the stream as [nearestPreceding] does. *)
Lemma findRawIndex_nearestPreceding t rest :
  forall prefix current,
    nth (findRawIndex (prefix ++ current :: rest) t (List.length prefix))
      (prefix ++ current :: rest) current
    = nearestPreceding current rest t.
Proof.
  induction rest as [| next rest IH]; intros prefix current.
  - rewrite findRawIndex_at_end
      by (rewrite length_app; simpl; lia).
    apply nth_middle.
  - assert (Hn : nth_error (prefix ++ current :: next :: rest)
                   (List.length prefix + 1) = Some next).
    { rewrite nth_error_app2 by lia.
      replace (List.length prefix + 1 - List.length prefix)%nat
        with 1%nat by lia.
      reflexivity. }
    cbn [nearestPreceding].
    destruct (num_le (processTimeMs next) t) eqn:Hle.
    + apply num_le_true in Hle.
      rewrite (findRawIndex_advance _ _ _ _ Hn Hle).
      specialize (IH (prefix ++ [current]) next).
      rewrite <- app_assoc, length_app in IH; cbn [List.length app] in IH.
      rewrite <- IH; apply nth_indep.
      apply findRawIndex_in_range.
      rewrite length_app; simpl; lia.
    + apply num_le_false in Hle.
      rewrite (findRawIndex_stay _ _ _ _ Hn Hle).
      apply nth_middle.
Qed.

(** *** One update *)

(** [update] reads the position and the cursor of the event, not its
    time. *)
Lemma update_ignores_time this raw t dt :
  update this
    {| x := x raw; y := y raw; cursorId := cursorId raw;
       processTimeMs := t |} dt
  = update this raw dt.
Proof. reflexivity. Qed.

Lemma detectTeleport_fresh config0 threshold raw :
  detectTeleport (newCursorSmoother config0 threshold) raw
  = createSpring2D 0 0.
Proof. reflexivity. Qed.

Lemma detectTeleport_jump this raw lastX lastY :
  lastRawPosition this = Some (lastX, lastY) ->
  sqrt ((x raw - lastX) * (x raw - lastX) + (y raw - lastY) * (y raw - lastY))
    > teleportThreshold this ->
  detectTeleport this raw = createSpring2D (x raw) (y raw).
Proof.
  intros Hlast Hjump; unfold detectTeleport; rewrite Hlast.
  apply num_gt_true in Hjump; now rewrite Hjump.
Qed.

(** Wherever the last raw position was, a spring that already rests on
    the event is left there: both branches of the teleport test agree. *)
Lemma detectTeleport_on_target this raw :
  spring this = createSpring2D (x raw) (y raw) ->
  detectTeleport this raw = createSpring2D (x raw) (y raw).
Proof.
  intros Hs; unfold detectTeleport.
  destruct (lastRawPosition this) as [[lastX lastY] |]; [| exact Hs].
  destruct (num_gt _ _); [reflexivity | exact Hs].
Qed.

Lemma update_spring this raw dt :
  spring (fst (update this raw dt))
  = stepSpring2D (detectTeleport this raw) (x raw) (y raw) (config this) dt.
Proof. reflexivity. Qed.

Lemma update_on_target this raw dt :
  detectTeleport this raw = createSpring2D (x raw) (y raw) ->
  update this raw dt
  = ({| spring := createSpring2D (x raw) (y raw);
        config := config this;
        lastRawPosition := Some (x raw, y raw);
        teleportThreshold := teleportThreshold this |},
     {| smoothedX := x raw; smoothedY := y raw;
        rawX := x raw; rawY := y raw;
        smoothedCursorId := cursorId raw |}).
Proof.
  intros Hd; unfold update; rewrite Hd, stepSpring2D_at_rest; reflexivity.
Qed.

(** *** The targets of the frames *)

Lemma frameRawIndex_in_range first rest D frame :
  (frameRawIndex (first :: rest) D frame < List.length (first :: rest))%nat.
Proof.
  induction frame as [| frame IH]; simpl frameRawIndex;
    apply findRawIndex_in_range; [simpl; lia | exact IH].
Qed.

Lemma frameTarget_nth_error first rest D frame :
  nth_error (first :: rest) (frameRawIndex (first :: rest) D frame)
  = Some (frameTarget first rest D frame).
Proof.
  unfold frameTarget; apply nth_error_nth'.
  apply frameRawIndex_in_range.
Qed.

Lemma frameRawIndex_scanStart moves D frame :
  frameRawIndex moves D frame
  = findRawIndex moves (INR frame * D) (scanStart moves D frame).
Proof. destruct frame; reflexivity. Qed.

(** When frame times do not decrease, the scan carried from frame to
    frame is the scan from the start of the stream. *)
Lemma frameRawIndex_from_start moves D frame :
  0 <= D ->
  frameRawIndex moves D frame = findRawIndex moves (INR frame * D) 0.
Proof.
  intros HD; induction frame as [| frame IH]; [reflexivity |].
  cbn [frameRawIndex]; rewrite IH.
  apply findRawIndex_resume.
  rewrite S_INR; nra.
Qed.

(** With a frame duration that is not negative, the target of a frame is
    the nearest preceding sample of its time. *)
Lemma frameTarget_nearestPreceding first rest D frame :
  0 <= D ->
  frameTarget first rest D frame = nearestPreceding first rest (INR frame * D).
Proof.
  intros HD; unfold frameTarget.
  rewrite frameRawIndex_from_start by assumption.
  apply (findRawIndex_nearestPreceding (INR frame * D) rest [] first).
Qed.

Lemma frameTarget_single sample D frame : frameTarget sample [] D frame = sample.
Proof.
  unfold frameTarget.
  pose proof (frameRawIndex_in_range sample [] D frame) as Hr; simpl in Hr.
  now replace (frameRawIndex [sample] D frame) with 0%nat by lia.
Qed.

Lemma last_cons_default {A : Type} (l : list A) (a d d' : A) :
  last (a :: l) d = last (a :: l) d'.
Proof.
  revert a; induction l as [| b l IH]; intros a; [reflexivity |].
  change (last (b :: l) d = last (b :: l) d'); apply IH.
Qed.

Lemma nth_error_last {A : Type} (first : A) rest :
  nth_error (first :: rest) (List.length (first :: rest) - 1)
  = Some (last rest first).
Proof.
  simpl; rewrite Nat.sub_0_r.
  revert first; induction rest as [| a rest IH]; intros first.
  - reflexivity.
  - change (nth_error (a :: rest) (List.length rest)
            = Some (last (a :: rest) first)).
    rewrite IH; f_equal.
    destruct rest as [| b rest]; [reflexivity |].
    exact (last_cons_default rest b a first).
Qed.

Lemma timeOrdered_nth moves i j a b :
  timeOrdered moves -> (i <= j)%nat ->
  nth_error moves i = Some a -> nth_error moves j = Some b ->
  processTimeMs a <= processTimeMs b.
Proof.
  intros Hs; revert i j; induction Hs as [| m moves Hs IH Hm];
    intros i j Hij Ha Hb.
  - destruct i; discriminate.
  - destruct i as [| i], j as [| j]; simpl in Ha, Hb; try lia.
    + injection Ha as <-; injection Hb as <-; lra.
    + injection Ha as <-.
      rewrite Forall_forall in Hm; apply Hm.
      eapply nth_error_In; eassumption.
    + apply (IH i j); [lia | assumption | assumption].
Qed.

Lemma timeOrdered_le_last first rest m :
  timeOrdered (first :: rest) -> In m (first :: rest) ->
  processTimeMs m <= processTimeMs (last rest first).
Proof.
  intros Hs Hin.
  apply In_nth_error in Hin as [i Hi].
  apply (timeOrdered_nth (first :: rest) i
           (List.length (first :: rest) - 1) m _ Hs);
    [| assumption | apply nth_error_last].
  assert (nth_error (first :: rest) i <> None) as Hn by congruence.
  apply nth_error_Some in Hn; lia.
Qed.

Lemma timeOrdered_ge_first first rest m :
  timeOrdered (first :: rest) -> In m (first :: rest) ->
  processTimeMs first <= processTimeMs m.
Proof.
  intros Hs Hin.
  apply In_nth_error in Hin as [i Hi].
  apply (timeOrdered_nth (first :: rest) 0 i first m Hs);
    [lia | reflexivity | assumption].
Qed.

Lemma frameCountOf_pos total D : (1 <= frameCountOf total D)%Z.
Proof. unfold frameCountOf; lia. Qed.

(** Within the frame count, a negative frame duration puts every frame
    after the first later than the whole stream. *)
Lemma negative_duration_frame_after_last total D frame :
  D < 0 -> (0 < frame)%nat ->
  (frame < Z.to_nat (frameCountOf total D))%nat ->
  total < INR frame * D.
Proof.
  intros HD Hpos Hlt; unfold frameCountOf in Hlt.
  assert (Hz : (Z.of_nat frame < Zceil (total / D))%Z) by lia.
  pose proof (Zceil_bound (total / D)) as [Hc _].
  apply IZR_lt in Hz; rewrite <- INR_IZR_INZ in Hz.
  assert (Hz' : IZR (Z.of_nat frame) + 1 <= IZR (Zceil (total / D))).
  { rewrite <- (plus_IZR _ 1); apply IZR_le; lia. }
  rewrite <- INR_IZR_INZ in Hz'.
  assert (Hq : INR frame < total / D) by lra.
  assert (Hm : total / D * D = total) by (field; lra).
  nra.
Qed.

Lemma frameTarget_at_or_before first rest D total frame :
  timeOrdered (first :: rest) ->
  total = processTimeMs (last rest first) ->
  (frame < Z.to_nat (frameCountOf total D))%nat ->
  frameRawIndex (first :: rest) D frame = 0%nat \/
  processTimeMs (frameTarget first rest D frame) <= INR frame * D.
Proof.
  intros Hs Ht Hlt.
  pose proof (frameTarget_nth_error first rest D frame) as Hn.
  destruct (Rle_dec 0 D) as [HD | HD].
  - rewrite frameRawIndex_from_start in * by assumption.
    now apply findRawIndex_from_start.
  - apply Rnot_le_lt in HD.
    destruct frame as [| frame].
    + now apply findRawIndex_from_start.
    + right.
      apply Rle_trans with total.
      * subst total; apply timeOrdered_le_last; [assumption |].
        eapply nth_error_In; eassumption.
      * left; apply negative_duration_frame_after_last;
          [assumption | lia | assumption].
Qed.

Lemma frameTarget_latest first rest D frame j later :
  timeOrdered (first :: rest) ->
  (frameRawIndex (first :: rest) D frame < j)%nat ->
  nth_error (first :: rest) j = Some later ->
  INR frame * D < processTimeMs later.
Proof.
  intros Hs Hj Hl.
  set (i := frameRawIndex (first :: rest) D frame) in *.
  destruct (nth_error (first :: rest) (i + 1)) as [next |] eqn:Hn.
  - apply Rlt_le_trans with (processTimeMs next).
    + unfold i in Hn; rewrite frameRawIndex_scanStart in Hn.
      eapply findRawIndex_exit; eassumption.
    + apply (timeOrdered_nth (first :: rest) (i + 1) j next later Hs);
        [lia | assumption | assumption].
  - apply nth_error_None in Hn.
    assert (nth_error (first :: rest) j <> None) as Hs' by congruence.
    apply nth_error_Some in Hs'; lia.
Qed.

(** *** Driving the smoother, and the frame loop *)

Lemma drive_length smoother dt targets :
  List.length (drive smoother dt targets) = List.length targets.
Proof.
  revert smoother; induction targets as [| raw targets IH]; intros smoother.
  - reflexivity.
  - simpl; destruct (update smoother raw dt) as [smoother' smoothed].
    simpl; now rewrite IH.
Qed.

(** Each frame reports the raw position and the cursor of its target. *)
Lemma drive_nth_error dt targets :
  forall smoother k frame,
    nth_error (drive smoother dt targets) k = Some frame ->
    exists raw,
      nth_error targets k = Some raw /\
      rawX frame = x raw /\ rawY frame = y raw /\
      smoothedCursorId frame = cursorId raw.
Proof.
  induction targets as [| raw targets IH]; intros smoother k frame Hk.
  - destruct k; discriminate.
  - cbn [drive] in Hk.
    destruct (update smoother raw dt) as [smoother' smoothed] eqn:Hu.
    destruct k as [| k]; simpl in Hk.
    + injection Hk as <-; exists raw.
      unfold update in Hu; injection Hu as _ <-; repeat split.
    + apply (IH smoother' k frame Hk).
Qed.

Lemma drive_on_target sample dt n :
  forall smoother,
    spring smoother = createSpring2D (x sample) (y sample) ->
    drive smoother dt (repeat sample n) = repeat (restingOn sample) n.
Proof.
  induction n as [| n IH]; intros smoother Hs; [reflexivity |].
  cbn [repeat drive].
  rewrite update_on_target by now apply detectTeleport_on_target.
  rewrite IH by reflexivity; reflexivity.
Qed.

Lemma map_const_seq {A : Type} (f : nat -> A) (a : A) n :
  (forall k, f k = a) -> forall start, map f (seq start n) = repeat a n.
Proof.
  intros Hf; induction n as [| n IH]; intros start; [reflexivity |].
  simpl; now rewrite Hf, IH.
Qed.

Lemma nth_error_map_seq {A : Type} (f : nat -> A) n k a :
  nth_error (map f (seq 0 n)) k = Some a -> (k < n)%nat /\ a = f k.
Proof.
  intros Hk.
  assert (Hlt : (k < n)%nat).
  { assert (Hn : nth_error (map f (seq 0 n)) k <> None) by congruence.
    apply nth_error_Some in Hn.
    now rewrite length_map, length_seq in Hn. }
  split; [assumption |].
  rewrite nth_error_map, nth_error_seq in Hk.
  apply Nat.ltb_lt in Hlt; rewrite Hlt in Hk; simpl in Hk; congruence.
Qed.

Lemma incrementalTrajectory_length first rest config0 outputFps :
  List.length (incrementalTrajectory first rest config0 outputFps)
  = Z.to_nat (frameCountOf (processTimeMs (last rest first))
                (1000 / outputFps)).
Proof.
  unfold incrementalTrajectory.
  now rewrite drive_length, length_map, length_seq.
Qed.

(** The loop never reads past the array, and what it pushes is what the
    smoother returns when driven with the frames' targets. *)
Lemma frameLoop_drive first rest D n :
  forall frame smoother result,
    frameLoop (first :: rest) D n frame
      (scanStart (first :: rest) D frame) smoother result
    = Returns
        (result ++ drive smoother (D / 1000)
                     (map (frameTarget first rest D) (seq frame n))).
Proof.
  induction n as [| n IH]; intros frame smoother result.
  - simpl; now rewrite app_nil_r.
  - cbn [frameLoop seq map drive].
    rewrite <- frameRawIndex_scanStart, frameTarget_nth_error.
    rewrite update_ignores_time.
    destruct (update smoother (frameTarget first rest D frame) (D / 1000))
      as [smoother' smoothed].
    change (frameRawIndex (first :: rest) D frame)
      with (scanStart (first :: rest) D (S frame)).
    rewrite IH, <- app_assoc; reflexivity.
Qed.

(** The batch resampler on a non-empty stream, unfolded once. *)
Lemma smoothMouseMoves_nonempty first rest config0 outputFps :
  smoothMouseMoves (first :: rest) config0 outputFps
  = Returns (incrementalTrajectory first rest config0 outputFps).
Proof.
  unfold smoothMouseMoves.
  rewrite nth_error_last.
  cbn [List.length Nat.eqb nth_error].
  etransitivity;
    [apply (frameLoop_drive first rest (1000 / outputFps) _ 0%nat) |].
  reflexivity.
Qed.

(** The specification's end-to-end scenario: samples (0, 0) at 0 ms and
    (100, 0) at 100 ms, the default config, 10 fps; one frame, which
    targets the first sample and rests on it. *)
Example end_to_end_scenario :
  smoothMouseMoves
    [{| x := 0; y := 0; cursorId := "arrow"; processTimeMs := 0 |};
     {| x := 100; y := 0; cursorId := "arrow"; processTimeMs := 100 |}]
    DEFAULT_SPRING_CONFIG 10
  = Returns [{| smoothedX := 0; smoothedY := 0; rawX := 0; rawY := 0;
                smoothedCursorId := "arrow" |}].
Proof.
  rewrite smoothMouseMoves_nonempty; f_equal.
  unfold incrementalTrajectory.
  cbn [last processTimeMs]; unfold frameCountOf.
  replace (Zceil (100 / (1000 / 10))) with 1%Z
    by (symmetry; apply Zceil_eq; simpl; lra).
  change (Z.to_nat (Z.max 1 1)) with 1%nat.
  cbn [seq map].
  rewrite frameTarget_nearestPreceding by lra.
  cbn [nearestPreceding processTimeMs INR].
  replace (num_le 100 (0 * (1000 / 10))) with false
    by (symmetry; apply num_le_false; lra).
  cbn [drive].
  rewrite update_on_target by (apply detectTeleport_on_target; reflexivity).
  reflexivity.
Qed.

(** *** Batch and incremental mode *)

(** *** The nearest-preceding sample, in the specification's words *)

Lemma nearestPrecedingSample_none moves t :
  (forall sample, In sample moves -> t < processTimeMs sample) ->
  nearestPrecedingSample moves t = None.
Proof.
  induction moves as [| sample later IH]; intros Hall; [reflexivity |].
  cbn [nearestPrecedingSample].
  rewrite IH by (intros s Hs; apply Hall; now right).
  assert (Hlt : t < processTimeMs sample) by (apply Hall; now left).
  replace (num_le (processTimeMs sample) t) with false
    by (symmetry; apply num_le_false; lra).
  reflexivity.
Qed.

Lemma nearestPrecedingSample_found moves t :
  forall i target,
    nth_error moves i = Some target ->
    processTimeMs target <= t ->
    (forall j later, (i < j)%nat -> nth_error moves j = Some later ->
                     t < processTimeMs later) ->
    nearestPrecedingSample moves t = Some target.
Proof.
  induction moves as [| sample later IH]; intros i target Hi Hle Hlater.
  - destruct i; discriminate.
  - cbn [nearestPrecedingSample].
    destruct i as [| i]; simpl in Hi.
    + injection Hi as ->.
      rewrite nearestPrecedingSample_none.
      * replace (num_le (processTimeMs target) t) with true
          by (symmetry; apply num_le_true; assumption).
        reflexivity.
      * intros s Hs; apply In_nth_error in Hs as [j Hj].
        apply (Hlater (S j) s); [lia | exact Hj].
    + rewrite (IH i target Hi Hle); [reflexivity |].
      intros j l Hij Hj; apply (Hlater (S j) l); [lia | exact Hj].
Qed.

(** On a stream ordered by time, the sample the loop reads at a frame is
    the nearest-preceding sample of the frame, and the first sample when
    the frame is earlier than every sample. *)
Lemma frameTarget_nearestPrecedingOrFirst first rest D frame :
  timeOrdered (first :: rest) ->
  (frame < Z.to_nat (frameCountOf (processTimeMs (last rest first)) D))%nat ->
  frameTarget first rest D frame
  = nearestPrecedingOrFirst first rest (INR frame * D).
Proof.
  intros Hordered Hframe; unfold nearestPrecedingOrFirst.
  pose proof (frameTarget_nth_error first rest D frame) as Htarget.
  destruct (Rle_dec (processTimeMs (frameTarget first rest D frame))
              (INR frame * D)) as [Hle | Hgt].
  - rewrite (nearestPrecedingSample_found _ _ _ _ Htarget Hle);
      [reflexivity |].
    intros j later; now apply frameTarget_latest.
  - destruct (frameTarget_at_or_before first rest D _ frame Hordered
                eq_refl Hframe) as [Hz | Hle]; [| contradiction].
    assert (Hfirst : frameTarget first rest D frame = first)
      by (unfold frameTarget; rewrite Hz; reflexivity).
    rewrite Hfirst in *.
    rewrite nearestPrecedingSample_none; [reflexivity |].
    intros sample Hin.
    apply Rlt_le_trans with (processTimeMs first); [lra |].
    now apply timeOrdered_ge_first with rest.
Qed.

Lemma map_ext_seq {A : Type} (f g : nat -> A) n :
  (forall k, (k < n)%nat -> f k = g k) ->
  map f (seq 0 n) = map g (seq 0 n).
Proof.
  intros H; apply map_ext_in; intros k Hk.
  apply in_seq in Hk; apply H; lia.
Qed.

(** Where every frame has a sample at or before it, the specification's
    targets are those of the amended reading. *)
Lemma specTargets_defined first rest D frames :
  (forall frame, In frame frames -> processTimeMs first <= INR frame * D) ->
  specTargets (first :: rest) D frames
  = Some (map (fun frame => nearestPrecedingOrFirst first rest (INR frame * D))
            frames).
Proof.
  induction frames as [| frame frames IH]; intros Hall; [reflexivity |].
  cbn [specTargets map].
  rewrite IH by (intros k Hk; apply Hall; now right).
  unfold nearestPrecedingOrFirst.
  destruct (nearestPrecedingSample (first :: rest) (INR frame * D))
    as [target |] eqn:Hn; [reflexivity |].
  exfalso.
  assert (Hle : processTimeMs first <= INR frame * D)
    by (apply Hall; now left).
  cbn [nearestPrecedingSample] in Hn.
  destruct (nearestPrecedingSample rest (INR frame * D)); [discriminate |].
  replace (num_le (processTimeMs first) (INR frame * D)) with true in Hn
    by (symmetry; apply num_le_true; assumption).
  discriminate.
Qed.

(** C1 as stated fails: samples at 50 ms and 150 ms, at 10 fps.  The
    batch resampler returns two frames, for the times 0 and 100 ms, both
    resting on the first sample; no sample is at or before the first
    frame's time, so that frame has no nearest-preceding sample and the
    incremental trajectory of the claim does not exist. *)
Lemma batch_incremental_counterexample :
  let first := {| x := 10; y := 20; cursorId := "arrow";
                  processTimeMs := 50 |} in
  let rest := [{| x := 30; y := 20; cursorId := "arrow";
                  processTimeMs := 150 |}] in
  timeOrdered (first :: rest) /\
  smoothMouseMoves (first :: rest) DEFAULT_SPRING_CONFIG 10
    = Returns [restingOn first; restingOn first] /\
  nearestPrecedingSample (first :: rest) (INR 0 * (1000 / 10)) = None /\
  specTrajectory first rest DEFAULT_SPRING_CONFIG 10 2 = None /\
  specTrajectory first rest DEFAULT_SPRING_CONFIG 10 2
    <> Some [restingOn first; restingOn first].
Proof.
  intros first rest.
  assert (Hnone : nearestPrecedingSample (first :: rest) (INR 0 * (1000 / 10))
                  = None).
  { apply nearestPrecedingSample_none.
    intros sample [<- | [<- | []]]; simpl; lra. }
  assert (Hspec : specTrajectory first rest DEFAULT_SPRING_CONFIG 10 2 = None).
  { unfold specTrajectory; cbv zeta; cbn [seq specTargets].
    rewrite Hnone; reflexivity. }
  split; [repeat constructor; simpl; lra |].
  split; [| split; [exact Hnone | split; [exact Hspec |]]].
  - rewrite smoothMouseMoves_nonempty; f_equal.
    unfold incrementalTrajectory.
    cbn [last processTimeMs rest]; unfold frameCountOf.
    replace (Zceil (150 / (1000 / 10))) with 2%Z
      by (symmetry; apply Zceil_eq; simpl; lra).
    change (Z.to_nat (Z.max 1 2)) with 2%nat.
    cbn [seq map].
    rewrite !frameTarget_nearestPreceding by lra.
    unfold rest; cbn [nearestPreceding processTimeMs INR].
    replace (num_le 150 (0 * (1000 / 10))) with false
      by (symmetry; apply num_le_false; lra).
    replace (num_le 150 (1 * (1000 / 10))) with false
      by (symmetry; apply num_le_false; lra).
    apply (drive_on_target first (1000 / 10 / 1000) 2); reflexivity.
  - rewrite Hspec; discriminate.
Qed.

(** C1, as the code has it: for every non-empty raw sample stream with
    non-decreasing [processTimeMs], every spring config and every output
    fps other than 0, the sequence [smoothMouseMoves] produces equals,
    element for element, the trajectory of a fresh [CursorSmoother] reset
    to the first sample's position and updated once per output frame,
    with the fixed [dt = (1000 / outputFps) / 1000] seconds, with that
    frame's nearest-preceding sample, or with the first sample when the
    frame is earlier than every sample.  When no frame is earlier than
    the first sample, this is the incremental trajectory of the
    specification. *)
Theorem smoothMouseMoves_agrees_with_incremental (first : MouseMoveEvent)
    (rest : list MouseMoveEvent) (config0 : SpringConfig) (outputFps : R)
    (Hfps : outputFps <> 0)
    (Hordered : timeOrdered (first :: rest)) :
  exists frames,
    smoothMouseMoves (first :: rest) config0 outputFps = Returns frames /\
    frames
    = amendedTrajectory first rest config0 outputFps (List.length frames) /\
    ((forall frame, (frame < List.length frames)%nat ->
        processTimeMs first <= INR frame * (1000 / outputFps)) ->
     specTrajectory first rest config0 outputFps (List.length frames)
     = Some frames).
Proof.
  exists (incrementalTrajectory first rest config0 outputFps).
  split; [apply smoothMouseMoves_nonempty |].
  rewrite incrementalTrajectory_length.
  set (D := 1000 / outputFps).
  set (n := Z.to_nat (frameCountOf (processTimeMs (last rest first)) D)).
  assert (Hagree :
            incrementalTrajectory first rest config0 outputFps
            = amendedTrajectory first rest config0 outputFps n).
  { unfold incrementalTrajectory, amendedTrajectory, freshSmoother.
    cbv zeta; fold D; fold n; f_equal.
    apply map_ext_seq; intros frame Hframe.
    now apply frameTarget_nearestPrecedingOrFirst. }
  split; [exact Hagree |].
  intros Hbefore.
  unfold specTrajectory; cbv zeta; fold D.
  rewrite specTargets_defined
    by (intros frame Hin; apply in_seq in Hin; apply Hbefore; lia).
  cbn [option_map]; f_equal.
  symmetry; exact Hagree.
Qed.

(** The specification's end-to-end scenario: samples at 0 ms and 100 ms,
    at 10 fps. *)
Lemma smoothMouseMoves_agrees_with_incremental_witness :
  let first := {| x := 0; y := 0; cursorId := "arrow";
                  processTimeMs := 0 |} in
  let rest := [{| x := 100; y := 0; cursorId := "arrow";
                  processTimeMs := 100 |}] in
  exists frames,
    smoothMouseMoves (first :: rest) DEFAULT_SPRING_CONFIG 10
      = Returns frames /\
    frames
    = amendedTrajectory first rest DEFAULT_SPRING_CONFIG 10
        (List.length frames) /\
    ((forall frame, (frame < List.length frames)%nat ->
        processTimeMs first <= INR frame * (1000 / 10)) ->
     specTrajectory first rest DEFAULT_SPRING_CONFIG 10 (List.length frames)
     = Some frames).
Proof.
  intros first rest.
  apply (smoothMouseMoves_agrees_with_incremental first rest
           DEFAULT_SPRING_CONFIG 10); [lra |].
  repeat constructor; simpl; lra.
Defined.

(** C8 as stated fails for the incremental mode: a freshly constructed
    smoother steps from (0, 0), here toward a first sample at (100, 0),
    and returns 625/32 = 19.53125 where a spring started on the sample
    would return 100. *)
Lemma initial_state_counterexample :
  let raw := {| x := 100; y := 0; cursorId := "arrow";
                processTimeMs := 0 |} in
  let this :=
    newCursorSmoother DEFAULT_SPRING_CONFIG DEFAULT_TELEPORT_THRESHOLD in
  detectTeleport this raw <> createSpring2D (x raw) (y raw) /\
  smoothedX (snd (update this raw (1 / 64))) = 625 / 32 /\
  smoothedX (snd (update this raw (1 / 64))) <> x raw.
Proof.
  cbv zeta; split; [| split].
  - rewrite detectTeleport_fresh; intros H.
    apply (f_equal (fun s => position (Spring.x s))) in H; simpl in H; lra.
  - cbn; lra.
  - cbn; lra.
Qed.

(** C8, as the code has it.  Batch mode: the frame loop of
    [smoothMouseMoves] starts from a smoother whose spring is at the
    first raw sample's position with zero velocity.  Incremental mode: a
    smoother that was [reset] to the first sample's position steps from
    that position with zero velocity, but a freshly constructed one is at
    (0, 0) with zero velocity and its first [update] steps from there. *)
Theorem initial_spring_state (config0 : SpringConfig) :
  (forall first rest outputFps,
    exists smoother,
      smoothMouseMoves (first :: rest) config0 outputFps
      = frameLoop (first :: rest) (1000 / outputFps)
          (Z.to_nat (frameCountOf (processTimeMs (last rest first))
                       (1000 / outputFps)))
          0 0 smoother [] /\
      spring smoother = createSpring2D (x first) (y first) /\
      getCurrentPosition smoother = (x first, y first) /\
      getCurrentVelocity smoother = (0, 0)) /\
  (forall this raw dt,
      spring (fst (update (reset this (x raw) (y raw)) raw dt))
      = stepSpring2D (createSpring2D (x raw) (y raw)) (x raw) (y raw)
          (config this) dt) /\
  (forall threshold raw dt,
      let this := newCursorSmoother config0 threshold in
      getCurrentPosition this = (0, 0) /\
      getCurrentVelocity this = (0, 0) /\
      spring (fst (update this raw dt))
      = stepSpring2D (createSpring2D 0 0) (x raw) (y raw) config0 dt).
Proof.
  split; [| split].
  - intros first rest outputFps; eexists; split.
    + unfold smoothMouseMoves; rewrite nth_error_last.
      cbn [List.length Nat.eqb nth_error]; reflexivity.
    + repeat split.
  - intros this raw dt.
    rewrite update_spring, detectTeleport_on_target; reflexivity.
  - intros threshold raw dt; repeat split.
Qed.

(** *** Teleports *)

(** C2. Teleport invariant: for every [CursorSmoother] with a recorded
    previous raw position and a mass other than 0, if the Euclidean
    distance between that position and the new raw sample exceeds the
    teleport threshold, then after [update] the returned smoothed position
    equals the new raw sample's coordinates exactly and the spring
    velocity is zero on both axes.  (After the reset [update] still takes
    a step, which divides a zero force by the mass.) *)
Theorem update_teleport_invariant (this : CursorSmoother)
    (raw : MouseMoveEvent) (dt lastX lastY : R)
    (Hmass : mass (config this) <> 0)
    (Hlast : lastRawPosition this = Some (lastX, lastY))
    (Hjump : sqrt ((x raw - lastX) * (x raw - lastX)
                   + (y raw - lastY) * (y raw - lastY))
             > teleportThreshold this) :
  let (this', smoothed) := update this raw dt in
  smoothedX smoothed = x raw /\ smoothedY smoothed = y raw /\
  getCurrentPosition this' = (x raw, y raw) /\
  getCurrentVelocity this' = (0, 0).
Proof.
  rewrite update_on_target
    by (eapply detectTeleport_jump; eassumption).
  repeat split.
Qed.

(** A smoother last seen at (0, 0), easing toward (300, 400), is sent a
    sample at (1000, 0): a jump of 1000 pixels, over the default
    threshold of 500. *)
Lemma update_teleport_invariant_witness :
  let this :=
    fst (update (reset (newCursorSmoother DEFAULT_SPRING_CONFIG
                          DEFAULT_TELEPORT_THRESHOLD) 0 0)
           {| x := 300; y := 400; cursorId := "arrow";
              processTimeMs := 0 |} (1 / 64)) in
  let raw := {| x := 1300; y := 400; cursorId := "arrow";
                processTimeMs := 16 |} in
  let (this', smoothed) := update this raw (1 / 64) in
  smoothedX smoothed = 1300 /\ smoothedY smoothed = 400 /\
  getCurrentPosition this' = (1300, 400) /\
  getCurrentVelocity this' = (0, 0).
Proof.
  intros this raw.
  apply (update_teleport_invariant this raw (1 / 64) 300 400);
    [simpl; lra | reflexivity |].
  subst this raw;
    cbn [x y teleportThreshold update fst newCursorSmoother reset].
  unfold DEFAULT_TELEPORT_THRESHOLD.
  replace ((1300 - 300) * (1300 - 300) + (400 - 400) * (400 - 400))
    with (1000 * 1000) by ring.
  rewrite sqrt_square; lra.
Defined.

(** *** Frame count and edge cases *)

(** C3 as stated fails: one sample at time 0, at 10 fps, gives one frame,
    and ceil(0 / 100) = 0. *)
Lemma frame_count_law_counterexample :
  let moves := [{| x := 0; y := 0; cursorId := "arrow";
                   processTimeMs := 0 |}] in
  exists frames,
    smoothMouseMoves moves DEFAULT_SPRING_CONFIG 10 = Returns frames /\
    List.length frames = 1%nat /\
    Zceil (0 / (1000 / 10)) = 0%Z /\
    Z.of_nat (List.length frames) <> Zceil (0 / (1000 / 10)).
Proof.
  assert (Hc : Zceil (0 / (1000 / 10)) = 0%Z).
  { apply Zceil_eq; simpl; lra. }
  eexists; split; [apply smoothMouseMoves_nonempty |].
  rewrite incrementalTrajectory_length.
  cbn [last processTimeMs]; unfold frameCountOf.
  rewrite Hc; repeat split; discriminate.
Qed.

(** C3, as the code has it: for every non-empty raw sample stream, spring
    config and output fps, [smoothMouseMoves] returns
    max(1, ceil(lastSample.processTimeMs / (1000 / outputFps))) frames;
    that is ceil(lastSample.processTimeMs / (1000 / outputFps)) whenever
    this ceiling is at least 1. *)
Theorem smoothMouseMoves_frame_count (first : MouseMoveEvent)
    (rest : list MouseMoveEvent) (config0 : SpringConfig) (outputFps : R) :
  exists frames,
    smoothMouseMoves (first :: rest) config0 outputFps = Returns frames /\
    Z.of_nat (List.length frames)
    = Z.max 1 (Zceil (processTimeMs (last rest first) / (1000 / outputFps))) /\
    ((1 <= Zceil (processTimeMs (last rest first) / (1000 / outputFps)))%Z ->
     Z.of_nat (List.length frames)
     = Zceil (processTimeMs (last rest first) / (1000 / outputFps))).
Proof.
  eexists; split; [apply smoothMouseMoves_nonempty |].
  rewrite incrementalTrajectory_length.
  pose proof (frameCountOf_pos (processTimeMs (last rest first))
                (1000 / outputFps)) as Hpos.
  rewrite Z2Nat.id by lia.
  unfold frameCountOf; split; lia.
Qed.

(** C9. Edge cases of batch resampling: for the empty raw stream
    [smoothMouseMoves] returns an empty sequence without raising an
    error; for a single-sample stream the frame count is at least 1, so
    a frame is still emitted, with the raw position equal to that
    sample's coordinates and, when the mass and the output fps are not 0,
    the smoothed position equal to them too (the spring rests on its
    target; its step divides a zero force by the mass, and its time step
    is the inverse of the output fps). *)
Theorem smoothMouseMoves_edge_cases (config0 : SpringConfig)
    (outputFps : R) :
  smoothMouseMoves [] config0 outputFps = Returns [] /\
  forall sample : MouseMoveEvent,
  exists frames,
    smoothMouseMoves [sample] config0 outputFps = Returns frames /\
    (1 <= List.length frames)%nat /\
    Forall (fun frame => rawX frame = x sample /\ rawY frame = y sample)
      frames /\
    (mass config0 <> 0 -> outputFps <> 0 ->
     Forall (fun frame =>
               smoothedX frame = x sample /\ smoothedY frame = y sample /\
               rawX frame = x sample /\ rawY frame = y sample) frames).
Proof.
  split; [reflexivity |].
  intros sample; eexists; split; [apply smoothMouseMoves_nonempty |].
  split.
  - rewrite incrementalTrajectory_length.
    pose proof (frameCountOf_pos (processTimeMs (last [] sample))
                  (1000 / outputFps)); lia.
  - unfold incrementalTrajectory.
    rewrite (map_const_seq _ sample) by apply frameTarget_single.
    rewrite drive_on_target by reflexivity.
    split; [| intros _ _]; apply Forall_forall; intros frame Hin;
      apply repeat_spec in Hin; subst frame; repeat split.
Qed.

(** One sample at (640, 360), the default config, 30 fps. *)
Lemma smoothMouseMoves_edge_cases_witness :
  let sample := {| x := 640; y := 360; cursorId := "arrow";
                   processTimeMs := 0 |} in
  smoothMouseMoves [] DEFAULT_SPRING_CONFIG 30 = Returns [] /\
  exists frames,
    smoothMouseMoves [sample] DEFAULT_SPRING_CONFIG 30 = Returns frames /\
    (1 <= List.length frames)%nat /\
    Forall (fun frame =>
              smoothedX frame = 640 /\ smoothedY frame = 360 /\
              rawX frame = 640 /\ rawY frame = 360) frames.
Proof.
  intros sample.
  destruct (smoothMouseMoves_edge_cases DEFAULT_SPRING_CONFIG 30)
    as [Hempty Hsingle].
  split; [exact Hempty |].
  destruct (Hsingle sample) as (frames & Hreturns & Hcount & _ & Hrest).
  exists frames; split; [exact Hreturns |]; split; [exact Hcount |].
  apply Hrest; [simpl; lra | lra].
Defined.

(** *** The target of a frame is the nearest preceding sample *)

(** C5 as stated fails: a stream whose only sample is at 50 ms, at 10
    fps, yields one frame, at time 0; its target is that sample, which is
    later than the frame. *)
Lemma nearest_preceding_counterexample :
  let sample := {| x := 10; y := 20; cursorId := "arrow";
                   processTimeMs := 50 |} in
  timeOrdered [sample] /\
  smoothMouseMoves [sample] DEFAULT_SPRING_CONFIG 10
    = Returns [restingOn sample] /\
  frameTarget sample [] (1000 / 10) 0 = sample /\
  ~ processTimeMs (frameTarget sample [] (1000 / 10) 0)
    <= INR 0 * (1000 / 10).
Proof.
  intros sample; split; [| split; [| split]].
  - repeat constructor.
  - rewrite smoothMouseMoves_nonempty; f_equal.
    unfold incrementalTrajectory.
    rewrite (map_const_seq _ sample) by apply frameTarget_single.
    rewrite drive_on_target by reflexivity.
    cbn [last processTimeMs sample]; unfold frameCountOf.
    replace (Zceil (50 / (1000 / 10))) with 1%Z
      by (symmetry; apply Zceil_eq; simpl; lra).
    reflexivity.
  - apply frameTarget_single.
  - rewrite frameTarget_single; simpl; lra.
Qed.

(** C5, as the code has it: for every non-empty raw sample stream whose
    [processTimeMs] values are non-decreasing, for every output fps other
    than 0 (the frame times are multiples of 1000 / outputFps) and for
    every output frame of the batch resampler, the frame reports its
    target sample; no raw
    sample after the target has [processTimeMs] at or before the frame's
    time; and the target's [processTimeMs] is at or before the frame's
    time unless every sample of the stream is later than the frame, in
    which case the target is the first sample. *)
Theorem frame_target_is_nearest_preceding (first : MouseMoveEvent)
    (rest : list MouseMoveEvent) (config0 : SpringConfig) (outputFps : R)
    (Hfps : outputFps <> 0)
    (Hordered : timeOrdered (first :: rest)) :
  exists frames,
    smoothMouseMoves (first :: rest) config0 outputFps = Returns frames /\
    forall frame smoothed,
      nth_error frames frame = Some smoothed ->
      let frameTimeMs := INR frame * (1000 / outputFps) in
      let rawIndex := frameRawIndex (first :: rest) (1000 / outputFps) frame in
      exists target,
        nth_error (first :: rest) rawIndex = Some target /\
        rawX smoothed = x target /\ rawY smoothed = y target /\
        smoothedCursorId smoothed = cursorId target /\
        (forall j later,
           (rawIndex < j)%nat -> nth_error (first :: rest) j = Some later ->
           frameTimeMs < processTimeMs later) /\
        (processTimeMs target <= frameTimeMs \/
         rawIndex = 0%nat /\
         forall sample, In sample (first :: rest) ->
                        frameTimeMs < processTimeMs sample).
Proof.
  eexists; split; [apply smoothMouseMoves_nonempty |].
  intros frame smoothed Hf frameTimeMs rawIndex.
  unfold incrementalTrajectory in Hf.
  apply drive_nth_error in Hf as (raw & Hraw & Hx & Hy & Hc).
  apply nth_error_map_seq in Hraw as [Hlt ->].
  set (D := 1000 / outputFps) in *.
  exists (frameTarget first rest D frame).
  split; [apply frameTarget_nth_error |].
  repeat (split; [assumption |]).
  split.
  - intros j later; now apply frameTarget_latest.
  - destruct (Rle_dec (processTimeMs (frameTarget first rest D frame))
                frameTimeMs) as [Hle | Hgt]; [now left | right].
    destruct (frameTarget_at_or_before first rest D _ frame Hordered
                eq_refl Hlt) as [Hz | Hle]; [| contradiction].
    split; [exact Hz |].
    intros sample Hin.
    apply Rlt_le_trans with (processTimeMs first).
    + apply Rnot_le_lt in Hgt.
      unfold frameTarget in Hgt; fold rawIndex in Hz.
      unfold rawIndex in Hz; rewrite Hz in Hgt; exact Hgt.
    + now apply timeOrdered_ge_first with rest.
Qed.

(** The stream of the specification's end-to-end scenario: samples at
    0 ms and 100 ms, at 10 fps. *)
Lemma frame_target_is_nearest_preceding_witness :
  let first := {| x := 0; y := 0; cursorId := "arrow";
                  processTimeMs := 0 |} in
  let rest := [{| x := 100; y := 0; cursorId := "arrow";
                  processTimeMs := 100 |}] in
  timeOrdered (first :: rest) /\
  exists frames,
    smoothMouseMoves (first :: rest) DEFAULT_SPRING_CONFIG 10
      = Returns frames /\
    forall frame smoothed,
      nth_error frames frame = Some smoothed ->
      exists target,
        nth_error (first :: rest)
          (frameRawIndex (first :: rest) (1000 / 10) frame) = Some target /\
        rawX smoothed = x target /\ rawY smoothed = y target /\
        smoothedCursorId smoothed = cursorId target /\
        (forall j later,
           (frameRawIndex (first :: rest) (1000 / 10) frame < j)%nat ->
           nth_error (first :: rest) j = Some later ->
           INR frame * (1000 / 10) < processTimeMs later) /\
        (processTimeMs target <= INR frame * (1000 / 10) \/
         frameRawIndex (first :: rest) (1000 / 10) frame = 0%nat /\
         forall sample, In sample (first :: rest) ->
                        INR frame * (1000 / 10) < processTimeMs sample).
Proof.
  intros first rest.
  assert (Hordered : timeOrdered (first :: rest)).
  { repeat constructor; simpl; lra. }
  split; [exact Hordered |].
  apply (frame_target_is_nearest_preceding first rest DEFAULT_SPRING_CONFIG
           10); [lra | exact Hordered].
Defined.

(** *** Invalid configurations *)

(** C7 as stated fails: with stiffness -1 the step is performed (from
    rest at 0 with target 1 the spring moves away, to -1), the
    constructor keeps the config, and the batch resampler, which
    constructs a smoother with this config and steps it toward the
    sample at (1, 0), returns the frame of that step. *)
Lemma invalid_config_counterexample :
  let config0 := {| stiffness := -1; damping := 0; mass := 1 |} in
  let moves :=
    [{| x := 0; y := 0; cursorId := "arrow"; processTimeMs := 0 |};
     {| x := 1; y := 0; cursorId := "arrow"; processTimeMs := 0 |}] in
  stiffness config0 <= 0 /\
  stepSpring (createSpringState 0) 1 config0 1
    = {| position := -1; velocity := -1 |} /\
  config (newCursorSmoother config0 DEFAULT_TELEPORT_THRESHOLD) = config0 /\
  smoothMouseMoves moves config0 1
    = Returns [{| smoothedX := -1; smoothedY := 0; rawX := 1; rawY := 0;
                  smoothedCursorId := "arrow" |}] /\
  smoothMouseMoves moves config0 1 <> Throws ConfigError.
Proof.
  intros config0 moves.
  assert (Hstep : stepSpring (createSpringState 0) 1 config0 1
                  = {| position := -1; velocity := -1 |}).
  { unfold stepSpring, createSpringState; simpl; f_equal; lra. }
  assert (Hrun : smoothMouseMoves moves config0 1
                 = Returns [{| smoothedX := -1; smoothedY := 0; rawX := 1;
                               rawY := 0; smoothedCursorId := "arrow" |}]).
  { unfold moves; rewrite smoothMouseMoves_nonempty; f_equal.
    unfold incrementalTrajectory.
    cbn [last processTimeMs]; unfold frameCountOf.
    replace (Zceil (0 / (1000 / 1))) with 0%Z
      by (symmetry; apply Zceil_eq; simpl; lra).
    change (Z.to_nat (Z.max 1 0)) with 1%nat.
    cbn [seq map].
    rewrite frameTarget_nearestPreceding by lra.
    cbn [nearestPreceding processTimeMs INR].
    replace (num_le 0 (0 * (1000 / 1))) with true
      by (symmetry; apply num_le_true; lra).
    cbn [drive update detectTeleport reset newCursorSmoother lastRawPosition
         x y teleportThreshold spring config cursorId].
    replace (num_gt (sqrt ((1 - 0) * (1 - 0) + (0 - 0) * (0 - 0)))
               DEFAULT_TELEPORT_THRESHOLD) with false.
    2:{ symmetry; apply num_gt_false.
        replace ((1 - 0) * (1 - 0) + (0 - 0) * (0 - 0)) with 1 by ring.
        rewrite sqrt_1; unfold DEFAULT_TELEPORT_THRESHOLD; lra. }
    replace (1000 / 1 / 1000) with 1 by field.
    unfold stepSpring2D, createSpring2D; cbn [Spring.x Spring.y].
    rewrite Hstep.
    replace (stepSpring (createSpringState 0) 0 config0 1)
      with (createSpringState 0) by (symmetry; apply stepSpring_at_rest).
    reflexivity. }
  repeat split; try assumption.
  - simpl; lra.
  - rewrite Hrun; discriminate.
Qed.

(** C7, as the code has it: no config is rejected.  For every config,
    whatever the signs of its stiffness and mass, [stepSpring] returns
    the state of the step formulas, the constructor returns an object
    holding that config, [update] steps with it and keeps it, and the
    batch resampler returns its frames: nothing raises a ConfigError. *)
Theorem no_config_validation (config0 : SpringConfig) :
  (forall state target dt,
     velocity (stepSpring state target config0 dt)
     = velocity state
       + (- stiffness config0 * (position state - target)
          + - damping config0 * velocity state) / mass config0 * dt /\
     position (stepSpring state target config0 dt)
     = position state + velocity (stepSpring state target config0 dt) * dt) /\
  (forall threshold,
     config (newCursorSmoother config0 threshold) = config0) /\
  (forall this raw dt,
     config this = config0 ->
     config (fst (update this raw dt)) = config0 /\
     spring (fst (update this raw dt))
     = stepSpring2D (detectTeleport this raw) (x raw) (y raw) config0 dt) /\
  (forall moves outputFps,
     exists frames,
       smoothMouseMoves moves config0 outputFps = Returns frames /\
       smoothMouseMoves moves config0 outputFps <> Throws ConfigError).
Proof.
  split; [| split; [| split]].
  - intros state target dt; split; reflexivity.
  - intros threshold; reflexivity.
  - intros this raw dt Hconfig; split.
    + simpl; assumption.
    + rewrite update_spring; congruence.
  - intros [| first rest] outputFps; eexists; split.
    + reflexivity.
    + discriminate.
    + apply smoothMouseMoves_nonempty.
    + rewrite smoothMouseMoves_nonempty; discriminate.
Qed.

End CursorSmoothingFacts.

(** * More about the code

    Properties of the functions above that the specification does not
    state. *)

(** ** The spring, on one axis and on two *)

Module SpringMore.

Import Spring Repeated RealSequences SpringFacts.

Lemma stepSpring_mapState s o state target config dt :
  stepSpring (mapState s o state) (target * s + o) config dt
  = mapState s o (stepSpring state target config dt).
Proof.
  unfold stepSpring, mapState; simpl.
  f_equal; unfold Rdiv; ring.
Qed.

(** Stepping commutes with every affine change of coordinate, for any
    number of steps: smoothing positions given in container pixels is the
    same as smoothing them in video pixels and converting the result. *)
Theorem stepSpringN_affine (n : nat) (s o : R) (state : SpringState)
    (target : R) (config : SpringConfig) (dt : R) :
  stepSpringN n (mapState s o state) (target * s + o) config dt
  = mapState s o (stepSpringN n state target config dt).
Proof.
  revert state; induction n as [| n IH]; intros state; [reflexivity |].
  cbn [stepSpringN].
  rewrite stepSpring_mapState; apply IH.
Qed.

(** The only state a step leaves unchanged is rest on the target. *)
Theorem stepSpring_fixed_point (state : SpringState) (target : R)
    (config : SpringConfig) (dt : R)
    (Hstiffness : stiffness config <> 0)
    (Hmass : mass config <> 0)
    (Hdt : dt <> 0) :
  stepSpring state target config dt = state
  <-> position state = target /\ velocity state = 0.
Proof.
  split.
  - intros Hfix.
    assert (Hp := f_equal position Hfix).
    assert (Hv := f_equal velocity Hfix).
    rewrite stepSpring_position, Hv in Hp.
    assert (Hv0 : velocity state = 0).
    { apply Rmult_eq_reg_r with dt; [lra | assumption]. }
    rewrite stepSpring_velocity, Hv0 in Hv.
    split; [| assumption].
    assert (Hacc : (- stiffness config * (position state - target)
                    + - damping config * 0) / mass config = 0).
    { apply Rmult_eq_reg_r with dt; [lra | assumption]. }
    assert (Hk : - stiffness config * (position state - target) = 0).
    { apply Rmult_eq_reg_r with (/ mass config).
      - unfold Rdiv in Hacc; lra.
      - now apply Rinv_neq_0_compat. }
    apply Rmult_integral in Hk as [Hk | Hk]; lra.
  - intros [Hp Hv].
    destruct state as [p v]; simpl in Hp, Hv; subst p v.
    apply stepSpring_at_rest.
Qed.

Lemma stepSpring_fixed_point_witness :
  stepSpring (createSpringState 100) 100 DEFAULT_SPRING_CONFIG (1 / 60)
  = createSpringState 100.
Proof.
  destruct (stepSpring_fixed_point (createSpringState 100) 100
              DEFAULT_SPRING_CONFIG (1 / 60)) as [_ H];
    [simpl; lra | simpl; lra | lra |].
  apply H; split; reflexivity.
Defined.

(** The threshold of [isSpringSettled] is strict: nothing is settled for
    a threshold that is not positive, a spring at rest on its target is
    settled for every positive one, and a settled spring stays settled
    when the threshold grows. *)
Theorem isSpringSettled_threshold (state : SpringState)
    (target threshold : R) :
  (threshold <= 0 -> isSpringSettled state target threshold = false) /\
  (0 < threshold ->
   isSpringSettled (createSpringState target) target threshold = true) /\
  (forall larger, threshold <= larger ->
     isSpringSettled state target threshold = true ->
     isSpringSettled state target larger = true).
Proof.
  unfold isSpringSettled; repeat split.
  - intros Hle; apply andb_false_iff; left; apply num_lt_false.
    pose proof (Rabs_pos (position state - target)); lra.
  - intros Hpos; simpl.
    replace (target - target) with 0 by ring.
    rewrite Rabs_R0.
    apply andb_true_intro; split; apply num_lt_true; assumption.
  - intros larger Hle Hs.
    apply andb_prop in Hs as [Hp Hv].
    apply num_lt_true in Hp, Hv.
    apply andb_true_intro; split; apply num_lt_true; lra.
Qed.

(** From any state, inside the stability region, one axis ends up
    settled for good. *)
Lemma stepSpringN_eventually_settled config target dt state0 threshold :
  0 < stiffness config -> 0 < damping config -> 0 < mass config ->
  0 < dt ->
  dt * (stiffness config * dt + 2 * damping config) < 4 * mass config ->
  0 < threshold ->
  exists N, forall n, (N <= n)%nat ->
    isSpringSettled (stepSpringN n state0 target config dt) target threshold
    = true.
Proof.
  intros Hk Hc Hm Hdt Hstable Hthr.
  destruct (spring_displacement_tendsToZero config target dt state0
              Hk Hc Hm Hdt Hstable threshold Hthr) as [N1 H1].
  assert (Hthr' : 0 < threshold * dt) by (apply Rmult_lt_0_compat; lra).
  destruct (spring_travel_tendsToZero config target dt state0
              Hk Hc Hm Hdt Hstable (threshold * dt) Hthr') as [N2 H2].
  exists (Nat.max N1 N2); intros n Hn.
  unfold isSpringSettled; apply andb_true_intro; split; apply num_lt_true.
  - apply (H1 n); lia.
  - specialize (H2 n ltac:(lia)).
    rewrite Rabs_mult, (Rabs_pos_eq dt) in H2 by lra.
    apply Rmult_lt_reg_r with dt; assumption.
Qed.

Lemma stepSpring2DN_axes n :
  forall state targetX targetY config dt,
    stepSpring2DN n state targetX targetY config dt
    = {| Spring.x := stepSpringN n (Spring.x state) targetX config dt;
         Spring.y := stepSpringN n (Spring.y state) targetY config dt |}.
Proof.
  induction n as [| n IH]; intros state targetX targetY config dt.
  - destruct state; reflexivity.
  - cbn [stepSpring2DN stepSpringN]; rewrite IH; reflexivity.
Qed.

(** Inside the stability region the 2-D spring, stepped from any state
    toward an unchanged target, ends up settled on both axes and stays
    settled. *)
Theorem stepSpring2D_settles (config : SpringConfig)
    (state : Spring2DState) (targetX targetY dt threshold : R)
    (Hstiffness : 0 < stiffness config)
    (Hdamping : 0 < damping config)
    (Hmass : 0 < mass config)
    (Hdt : 0 < dt)
    (Hthreshold : 0 < threshold)
    (Hstable :
       dt * (stiffness config * dt + 2 * damping config) < 4 * mass config) :
  exists N, forall n, (N <= n)%nat ->
    isSpring2DSettled (stepSpring2DN n state targetX targetY config dt)
      targetX targetY threshold
    = true.
Proof.
  destruct (stepSpringN_eventually_settled config targetX dt
              (Spring.x state) threshold Hstiffness Hdamping Hmass Hdt
              Hstable Hthreshold) as [Nx Hx].
  destruct (stepSpringN_eventually_settled config targetY dt
              (Spring.y state) threshold Hstiffness Hdamping Hmass Hdt
              Hstable Hthreshold) as [Ny Hy].
  exists (Nat.max Nx Ny); intros n Hn.
  rewrite stepSpring2DN_axes; unfold isSpring2DSettled; cbn [Spring.x Spring.y].
  rewrite Hx, Hy by lia; reflexivity.
Qed.

(** The default config at 60 steps a second, from a spring moving at
    (0, 0) toward (960, 540). *)
Lemma stepSpring2D_settles_witness :
  exists N, forall n, (N <= n)%nat ->
    isSpring2DSettled
      (stepSpring2DN n
         {| Spring.x := {| position := 0; velocity := 300 |};
            Spring.y := {| position := 0; velocity := -200 |} |}
         960 540 DEFAULT_SPRING_CONFIG (1 / 60))
      960 540 DEFAULT_SETTLE_THRESHOLD
    = true.
Proof.
  apply stepSpring2D_settles;
    unfold DEFAULT_SPRING_CONFIG, DEFAULT_SETTLE_THRESHOLD; simpl; lra.
Defined.

End SpringMore.

(** ** The smoother and the batch resampler *)

Module CursorSmoothingMore.

Import Spring CursorSmoothing Incremental Repeated SpringFacts SpringMore
  CursorSmoothingFacts.

Lemma zero_distance (a b : R) : sqrt ((a - a) * (a - a) + (b - b) * (b - b)) = 0.
Proof.
  replace ((a - a) * (a - a) + (b - b) * (b - b)) with 0 by ring.
  apply sqrt_0.
Qed.

Lemma detectTeleport_within this raw lastX lastY :
  lastRawPosition this = Some (lastX, lastY) ->
  sqrt ((x raw - lastX) * (x raw - lastX) + (y raw - lastY) * (y raw - lastY))
    <= teleportThreshold this ->
  detectTeleport this raw = spring this.
Proof.
  intros Hlast Hnear; unfold detectTeleport; rewrite Hlast.
  apply num_gt_false in Hnear; now rewrite Hnear.
Qed.

Lemma createSpring2D_settled px py threshold :
  0 < threshold ->
  isSpring2DSettled (createSpring2D px py) px py threshold = true.
Proof.
  intros Hthr; unfold isSpring2DSettled, isSpringSettled; simpl.
  replace (px - px) with 0 by ring; replace (py - py) with 0 by ring.
  rewrite Rabs_R0.
  assert (H : num_lt 0 threshold = true) by now apply num_lt_true.
  now rewrite H.
Qed.

(** While the sample does not change and the threshold is not negative,
    [update] never teleports: the object's spring is the 2-D spring
    stepped toward the sample. *)
Lemma updateN_steady n :
  forall this raw dt,
    lastRawPosition this = Some (x raw, y raw) ->
    0 <= teleportThreshold this ->
    spring (updateN n this raw dt)
    = stepSpring2DN n (spring this) (x raw) (y raw) (config this) dt.
Proof.
  induction n as [| n IH]; intros this raw dt Hlast Hthr; [reflexivity |].
  cbn [updateN stepSpring2DN].
  rewrite IH by (simpl; auto).
  rewrite update_spring.
  rewrite (detectTeleport_within this raw (x raw) (y raw) Hlast)
    by (rewrite zero_distance; assumption).
  reflexivity.
Qed.

(** With a negative threshold every [update] after the first teleports:
    the spring is put on the sample and stays there. *)
Lemma updateN_negative_threshold n :
  forall this raw dt,
    lastRawPosition this = Some (x raw, y raw) ->
    teleportThreshold this < 0 ->
    spring (updateN (S n) this raw dt) = createSpring2D (x raw) (y raw).
Proof.
  induction n as [| n IH]; intros this raw dt Hlast Hthr.
  - cbn [updateN]; rewrite update_on_target; [reflexivity |].
    apply (detectTeleport_jump this raw (x raw) (y raw) Hlast).
    rewrite zero_distance; lra.
  - change (updateN (S (S n)) this raw dt)
      with (updateN (S n) (fst (update this raw dt)) raw dt).
    apply IH; simpl; auto.
Qed.

(** Holding the cursor still.  Whatever the smoother's state and
    teleport threshold, if its config is inside the stability region then
    calling [update] again and again with the same sample brings the
    spring to rest on that sample: from some call on it is settled on
    both axes, and stays so. *)
Theorem update_same_sample_settles (this : CursorSmoother)
    (raw : MouseMoveEvent) (dt threshold : R)
    (Hstiffness : 0 < stiffness (config this))
    (Hdamping : 0 < damping (config this))
    (Hmass : 0 < mass (config this))
    (Hdt : 0 < dt)
    (Hthreshold : 0 < threshold)
    (Hstable :
       dt * (stiffness (config this) * dt + 2 * damping (config this))
       < 4 * mass (config this)) :
  exists N, forall n, (N <= n)%nat ->
    isSpring2DSettled (spring (updateN n this raw dt)) (x raw) (y raw)
      threshold
    = true.
Proof.
  set (this1 := fst (update this raw dt)).
  assert (Hlast : lastRawPosition this1 = Some (x raw, y raw)) by reflexivity.
  assert (Hcfg : config this1 = config this) by reflexivity.
  destruct (Rlt_dec (teleportThreshold this) 0) as [Hneg | Hpos].
  - exists 2%nat; intros n Hn.
    destruct n as [| [| n]]; try lia.
    change (updateN (S (S n)) this raw dt) with (updateN (S n) this1 raw dt).
    rewrite updateN_negative_threshold by assumption.
    now apply createSpring2D_settled.
  - apply Rnot_lt_le in Hpos.
    destruct (stepSpringN_eventually_settled (config this) (x raw) dt
                (Spring.x (spring this1)) threshold Hstiffness Hdamping
                Hmass Hdt Hstable Hthreshold) as [Nx Hx].
    destruct (stepSpringN_eventually_settled (config this) (y raw) dt
                (Spring.y (spring this1)) threshold Hstiffness Hdamping
                Hmass Hdt Hstable Hthreshold) as [Ny Hy].
    exists (S (Nat.max Nx Ny)); intros n Hn.
    destruct n as [| n]; [lia |].
    change (updateN (S n) this raw dt) with (updateN n this1 raw dt).
    rewrite updateN_steady by assumption.
    rewrite Hcfg, stepSpring2DN_axes.
    unfold isSpring2DSettled; cbn [Spring.x Spring.y].
    rewrite Hx, Hy by lia; reflexivity.
Qed.

(** A freshly constructed smoother with the default config, updated 60
    times a second with a sample at (640, 360). *)
Lemma update_same_sample_settles_witness :
  exists N, forall n, (N <= n)%nat ->
    isSpring2DSettled
      (spring
         (updateN n
            (newCursorSmoother DEFAULT_SPRING_CONFIG
               DEFAULT_TELEPORT_THRESHOLD)
            {| x := 640; y := 360; cursorId := "arrow";
               processTimeMs := 0 |}
            (1 / 60)))
      640 360 DEFAULT_SETTLE_THRESHOLD
    = true.
Proof.
  apply (update_same_sample_settles
           (newCursorSmoother DEFAULT_SPRING_CONFIG
              DEFAULT_TELEPORT_THRESHOLD)
           {| x := 640; y := 360; cursorId := "arrow"; processTimeMs := 0 |});
    unfold DEFAULT_SPRING_CONFIG, DEFAULT_SETTLE_THRESHOLD; simpl; lra.
Defined.

(** A negative teleport threshold switches smoothing off: once a raw
    position is recorded, every [update] returns the raw position itself
    and leaves the spring at rest on it.  (The mass is not 0: the step
    from rest divides a zero force by it.) *)
Theorem update_negative_threshold_passthrough (this : CursorSmoother)
    (raw : MouseMoveEvent) (dt lastX lastY : R)
    (Hlast : lastRawPosition this = Some (lastX, lastY))
    (Hnegative : teleportThreshold this < 0)
    (Hmass : mass (config this) <> 0) :
  let (this', smoothed) := update this raw dt in
  smoothedX smoothed = rawX smoothed /\
  smoothedY smoothed = rawY smoothed /\
  spring this' = createSpring2D (x raw) (y raw) /\
  teleportThreshold this' < 0.
Proof.
  rewrite update_on_target.
  - repeat split; assumption.
  - apply (detectTeleport_jump this raw lastX lastY Hlast).
    apply Rlt_le_trans with 0; [assumption | apply sqrt_pos].
Qed.

Lemma update_negative_threshold_passthrough_witness :
  let this := reset (setTeleportThreshold
                       (newCursorSmoother DEFAULT_SPRING_CONFIG
                          DEFAULT_TELEPORT_THRESHOLD) (-1)) 10 10 in
  let raw := {| x := 11; y := 10; cursorId := "arrow";
                processTimeMs := 16 |} in
  let (this', smoothed) := update this raw (1 / 64) in
  smoothedX smoothed = rawX smoothed /\
  smoothedY smoothed = rawY smoothed /\
  spring this' = createSpring2D (x raw) (y raw) /\
  teleportThreshold this' < 0.
Proof.
  intros this raw.
  apply (update_negative_threshold_passthrough this raw (1 / 64) 10 10);
    [reflexivity | simpl; lra | simpl; lra].
Defined.

Lemma frameRawIndex_step moves D frame :
  (frameRawIndex moves D frame <= frameRawIndex moves D (S frame))%nat.
Proof. cbn [frameRawIndex]; apply findRawIndex_ge. Qed.

Lemma frameRawIndex_monotone moves D frame later :
  (frame <= later)%nat ->
  (frameRawIndex moves D frame <= frameRawIndex moves D later)%nat.
Proof.
  induction 1 as [| later Hle IH]; [lia |].
  pose proof (frameRawIndex_step moves D later); lia.
Qed.

Lemma incrementalTrajectory_reports first rest config0 outputFps k smoothed :
  nth_error (incrementalTrajectory first rest config0 outputFps) k
    = Some smoothed ->
  (k < Z.to_nat (frameCountOf (processTimeMs (last rest first))
                   (1000 / outputFps)))%nat /\
  reports (first :: rest)
    (frameRawIndex (first :: rest) (1000 / outputFps) k) smoothed.
Proof.
  intros Hk; unfold incrementalTrajectory in Hk.
  apply drive_nth_error in Hk as (raw & Hraw & Hx & Hy & Hc).
  apply nth_error_map_seq in Hraw as [Hlt ->].
  split; [assumption |].
  exists (frameTarget first rest (1000 / outputFps) k).
  split; [apply frameTarget_nth_error | auto].
Qed.

Lemma drive_reports first rest D dt :
  forall frames smoother,
    Forall2 (reports (first :: rest))
      (map (frameRawIndex (first :: rest) D) frames)
      (drive smoother dt (map (frameTarget first rest D) frames)).
Proof.
  induction frames as [| k frames IH]; intros smoother; [constructor |].
  cbn [map drive].
  destruct (update smoother (frameTarget first rest D k) dt)
    as [smoother' smoothed] eqn:Hu.
  constructor; [| apply IH].
  exists (frameTarget first rest D k).
  split; [apply frameTarget_nth_error |].
  unfold update in Hu; injection Hu as _ <-; repeat split.
Qed.

Lemma frameRawIndex_sorted moves D n :
  forall start,
    StronglySorted le (map (frameRawIndex moves D) (seq start n)).
Proof.
  induction n as [| n IH]; intros start; [constructor |].
  cbn [seq map]; constructor; [apply IH |].
  apply Forall_forall; intros i Hi.
  apply in_map_iff in Hi as (k & <- & Hk).
  apply in_seq in Hk.
  apply frameRawIndex_monotone; lia.
Qed.

(** The batch output walks through the stream forwards: there are
    indices into the stream, one per frame and never decreasing, such
    that every frame reports the position and the cursor of the sample at
    its index. *)
Theorem smoothMouseMoves_walks_forward (first : MouseMoveEvent)
    (rest : list MouseMoveEvent) (config0 : SpringConfig) (outputFps : R) :
  exists (frames : list SmoothedPosition) (indices : list nat),
    smoothMouseMoves (first :: rest) config0 outputFps = Returns frames /\
    Forall2 (reports (first :: rest)) indices frames /\
    StronglySorted le indices.
Proof.
  exists (incrementalTrajectory first rest config0 outputFps).
  exists (map (frameRawIndex (first :: rest) (1000 / outputFps))
            (seq 0 (Z.to_nat (frameCountOf (processTimeMs (last rest first))
                                (1000 / outputFps))))).
  split; [apply smoothMouseMoves_nonempty |].
  split; [apply drive_reports | apply frameRawIndex_sorted].
Qed.

(** *** A cursor that does not move *)

Lemma drive_stationary px py dt :
  forall targets smoother,
    spring smoother = createSpring2D px py ->
    Forall (fun raw => x raw = px /\ y raw = py) targets ->
    Forall (fun frame =>
              smoothedX frame = px /\ smoothedY frame = py /\
              rawX frame = px /\ rawY frame = py)
      (drive smoother dt targets).
Proof.
  induction targets as [| raw targets IH]; intros smoother Hs Hall;
    [constructor |].
  inversion Hall as [| ? ? [Hx Hy] Hall']; subst.
  cbn [drive].
  rewrite update_on_target
    by (apply detectTeleport_on_target; rewrite Hs; reflexivity).
  constructor; [repeat split |].
  apply IH; [reflexivity | assumption].
Qed.

(** A cursor that does not move is not moved: when every sample of the
    stream is at the same position, every output frame has that position,
    smoothed and raw, whatever the stiffness, the damping and the times
    of the samples.  (The mass and the frame rate are not 0: the step
    from rest divides a zero force by the mass, over a time step that is
    the inverse of the frame rate.) *)
Theorem smoothMouseMoves_stationary (first : MouseMoveEvent)
    (rest : list MouseMoveEvent) (config0 : SpringConfig) (outputFps : R)
    (Hmass : mass config0 <> 0)
    (Hfps : outputFps <> 0)
    (Hstill : Forall (fun sample => x sample = x first /\ y sample = y first)
                rest) :
  exists frames,
    smoothMouseMoves (first :: rest) config0 outputFps = Returns frames /\
    Forall (fun frame =>
              smoothedX frame = x first /\ smoothedY frame = y first /\
              rawX frame = x first /\ rawY frame = y first) frames.
Proof.
  eexists; split; [apply smoothMouseMoves_nonempty |].
  unfold incrementalTrajectory.
  apply drive_stationary; [reflexivity |].
  apply Forall_forall; intros raw Hin.
  apply in_map_iff in Hin as (k & <- & _).
  pose proof (frameTarget_nth_error first rest (1000 / outputFps) k) as Hn.
  apply nth_error_In in Hn; destruct Hn as [<- | Hn]; [split; reflexivity |].
  rewrite Forall_forall in Hstill; now apply Hstill.
Qed.

(** Three samples at (640, 360), with different cursors and times. *)
Lemma smoothMouseMoves_stationary_witness :
  let first := {| x := 640; y := 360; cursorId := "arrow";
                  processTimeMs := 0 |} in
  let rest := [{| x := 640; y := 360; cursorId := "ibeam";
                  processTimeMs := 400 |};
               {| x := 640; y := 360; cursorId := "arrow";
                  processTimeMs := 900 |}] in
  exists frames,
    smoothMouseMoves (first :: rest) DEFAULT_SPRING_CONFIG 30
      = Returns frames /\
    Forall (fun frame =>
              smoothedX frame = x first /\ smoothedY frame = y first /\
              rawX frame = x first /\ rawY frame = y first) frames.
Proof.
  intros first rest.
  apply (smoothMouseMoves_stationary first rest DEFAULT_SPRING_CONFIG 30);
    [simpl; lra | lra |].
  repeat constructor.
Defined.

End CursorSmoothingMore.

(** ** The overlay *)

Module OverlayMore.

Import CursorSmoothing CursorOverlay OverlayComponent CursorOverlayFacts.

(** The scaled video touches the container along one axis: it fills the
    width, with equal margins above and below, or the height, with equal
    margins left and right (letterbox or pillarbox, never both). *)
Theorem calculateScale_fills_one_axis (videoWidth videoHeight
    containerWidth containerHeight : R)
    (Hvw : 0 < videoWidth) (Hvh : 0 < videoHeight) :
  let result :=
    calculateScale videoWidth videoHeight containerWidth containerHeight in
  (containerWidth / videoWidth <= containerHeight / videoHeight ->
   offsetX result = 0 /\ videoWidth * scale result = containerWidth) /\
  (containerHeight / videoHeight <= containerWidth / videoWidth ->
   offsetY result = 0 /\ videoHeight * scale result = containerHeight) /\
  (offsetX result = 0 \/ offsetY result = 0).
Proof.
  intros result; subst result.
  rewrite calculateScale_nonzero_video by lra; cbv zeta; simpl.
  assert (Hw : forall s, s = containerWidth / videoWidth ->
                         videoWidth * s = containerWidth)
    by (intros s ->; field; lra).
  assert (Hh : forall s, s = containerHeight / videoHeight ->
                         videoHeight * s = containerHeight)
    by (intros s ->; field; lra).
  split; [| split].
  - intros Hle; rewrite Rmin_left by assumption.
    rewrite (Hw _ eq_refl); split; lra.
  - intros Hle; rewrite Rmin_right by assumption.
    rewrite (Hh _ eq_refl); split; lra.
  - destruct (Rle_dec (containerWidth / videoWidth)
                (containerHeight / videoHeight)) as [Hle | Hgt].
    + left; rewrite Rmin_left by assumption.
      rewrite (Hw _ eq_refl); lra.
    + right; rewrite Rmin_right by lra.
      rewrite (Hh _ eq_refl); lra.
Qed.

(** A 1920x1080 video in a 960x720 container fills the width. *)
Lemma calculateScale_fills_one_axis_witness :
  offsetX (calculateScale 1920 1080 960 720) = 0 /\
  1920 * scale (calculateScale 1920 1080 960 720) = 960.
Proof.
  apply (calculateScale_fills_one_axis 1920 1080 960 720); lra.
Defined.

Lemma Rmin_scale (k a b : R) : 0 < k -> Rmin (k * a) (k * b) = k * Rmin a b.
Proof.
  intros Hk; destruct (Rle_dec a b) as [Hle | Hgt].
  - rewrite !Rmin_left; [reflexivity | assumption |].
    apply Rmult_le_compat_l; lra.
  - rewrite !Rmin_right; [reflexivity | lra |].
    apply Rmult_le_compat_l; lra.
Qed.

(** Resizing the container by a factor [k > 0] resizes the fit by [k]:
    the scale and both offsets are multiplied by [k]. *)
Theorem calculateScale_container_resize (videoWidth videoHeight
    containerWidth containerHeight k : R)
    (Hvw : videoWidth <> 0) (Hvh : videoHeight <> 0) (Hk : 0 < k) :
  let result :=
    calculateScale videoWidth videoHeight containerWidth containerHeight in
  calculateScale videoWidth videoHeight (k * containerWidth)
    (k * containerHeight)
  = {| scale := k * scale result;
       offsetX := k * offsetX result;
       offsetY := k * offsetY result |}.
Proof.
  intros result; subst result.
  rewrite !calculateScale_nonzero_video by assumption; cbv zeta; simpl.
  assert (Hmin : Rmin (k * containerWidth / videoWidth)
                   (k * containerHeight / videoHeight)
                 = k * Rmin (containerWidth / videoWidth)
                         (containerHeight / videoHeight)).
  { rewrite <- Rmin_scale by assumption.
    f_equal; unfold Rdiv; ring. }
  rewrite Hmin; f_equal; field.
Qed.

Lemma calculateScale_container_resize_witness :
  calculateScale 1920 1080 (2 * 960) (2 * 720)
  = {| scale := 2 * scale (calculateScale 1920 1080 960 720);
       offsetX := 2 * offsetX (calculateScale 1920 1080 960 720);
       offsetY := 2 * offsetY (calculateScale 1920 1080 960 720) |}.
Proof.
  apply (calculateScale_container_resize 1920 1080 960 720 2); lra.
Defined.

Lemma CursorOverlay_anchor convertFileSrc props position0 :
  position props = Some position0 ->
  exists overlay,
    CursorOverlay convertFileSrc props = Some overlay /\
    let result :=
      calculateScale (videoWidth props) (videoHeight props)
        (containerWidth props) (containerHeight props) in
    anchor (cursors props (smoothedCursorId position0))
      (cursorElement overlay)
    = (smoothedX position0 * scale result + offsetX result,
       smoothedY position0 * scale result + offsetY result).
Proof.
  intros Hp; unfold CursorOverlay, cursorImageUrls; rewrite Hp.
  eexists; split; [reflexivity |].
  cbv zeta; cbn [cursorElement].
  destruct (cursors props (smoothedCursorId position0)) as [info |];
    [| reflexivity].
  destruct (truthy (imagePath info)); [| reflexivity].
  destruct (truthy (convertFileSrc (imagePath info))); [| reflexivity].
  unfold anchor; f_equal; ring.
Qed.

(** A cursor inside the video is drawn inside the picture.  For positive
    video and container dimensions, when the smoothed position lies in
    the video rectangle, the element [CursorOverlay] renders puts the
    cursor's hotspot inside the scaled video's rectangle in the
    container, margins excluded; in particular inside the container.
    This holds whatever the cursor size, the hotspot and the URL
    [convertFileSrc] returns. *)
Theorem CursorOverlay_hotspot_inside_picture
    (convertFileSrc : string -> string) (props : CursorOverlayProps)
    (position0 : SmoothedPosition)
    (Hposition : position props = Some position0)
    (Hvw : 0 < videoWidth props) (Hvh : 0 < videoHeight props)
    (Hcw : 0 < containerWidth props) (Hch : 0 < containerHeight props)
    (Hx : 0 <= smoothedX position0 <= videoWidth props)
    (Hy : 0 <= smoothedY position0 <= videoHeight props) :
  exists overlay,
    CursorOverlay convertFileSrc props = Some overlay /\
    let result :=
      calculateScale (videoWidth props) (videoHeight props)
        (containerWidth props) (containerHeight props) in
    let '(anchorX, anchorY) :=
      anchor (cursors props (smoothedCursorId position0))
        (cursorElement overlay) in
    0 <= offsetX result <= anchorX /\
    anchorX <= containerWidth props - offsetX result /\
    0 <= offsetY result <= anchorY /\
    anchorY <= containerHeight props - offsetY result.
Proof.
  destruct (CursorOverlay_anchor convertFileSrc props position0 Hposition)
    as (overlay & Ho & Ha).
  exists overlay; split; [exact Ho |].
  cbv zeta in Ha |- *; rewrite Ha.
  rewrite calculateScale_nonzero_video by lra; cbv zeta; simpl.
  destruct (scaled_video_fits (videoWidth props) (videoHeight props)
              (containerWidth props) (containerHeight props) Hvw Hvh)
    as [Fw Fh].
  set (s := Rmin (containerWidth props / videoWidth props)
              (containerHeight props / videoHeight props)) in *.
  assert (Hs : 0 < s).
  { apply Rmin_glb_lt; apply Rdiv_lt_0_compat; assumption. }
  repeat split; nra.
Qed.

(** A 1920x1080 video in a 960x720 container, the cursor an image with
    its hotspot at (4, 4), drawn at one and a half times its size. *)
Lemma CursorOverlay_hotspot_inside_picture_witness :
  let convertFileSrc := fun path => append "asset://localhost/" path in
  let position0 := {| smoothedX := 960; smoothedY := 540; rawX := 970;
                      rawY := 540; smoothedCursorId := "arrow" |} in
  let arrow := {| id := "arrow"; imagePath := "cursors/arrow.png";
                  hotspotX := 4; hotspotY := 4; width := 32; height := 32 |} in
  let props :=
    {| position := Some position0;
       cursors := fun key => if String.eqb key "arrow" then Some arrow
                             else None;
       cursorSize := 3 / 2;
       videoWidth := 1920; videoHeight := 1080;
       containerWidth := 960; containerHeight := 720;
       showDebug := false |} in
  exists overlay,
    CursorOverlay convertFileSrc props = Some overlay /\
    let result := calculateScale 1920 1080 960 720 in
    let '(anchorX, anchorY) :=
      anchor (Some arrow) (cursorElement overlay) in
    0 <= offsetX result <= anchorX /\
    anchorX <= 960 - offsetX result /\
    0 <= offsetY result <= anchorY /\
    anchorY <= 720 - offsetY result.
Proof.
  intros convertFileSrc position0 arrow props.
  apply (CursorOverlay_hotspot_inside_picture convertFileSrc props position0
           eq_refl);
    simpl; lra.
Defined.

End OverlayMore.

(** ** Elapsed time as text *)

Module TimeFormatMore.

Import TimeFormat.

Lemma padStart2_seconds (s : nat) :
  (s < 60)%nat -> padStart2 (toString (Z.of_nat s)) = twoDigits s.
Proof.
  intros Hs.
  assert (Hall : forallb
                   (fun n => String.eqb (padStart2 (toString (Z.of_nat n)))
                               (twoDigits n))
                   (seq 0 60) = true) by (vm_compute; reflexivity).
  rewrite forallb_forall in Hall.
  apply String.eqb_eq, Hall, in_seq; lia.
Qed.

Lemma Zfloor_nonneg (v : R) : 0 <= v -> (0 <= Zfloor v)%Z.
Proof. intros Hv; apply Zfloor_lub; simpl; lra. Qed.

(** The whole minutes and seconds of a time that is not negative, and
    the two digits [padStart] makes of the seconds. *)
Lemma whole_minutes_seconds (ms : R) :
  0 <= ms ->
  exists minutes seconds : nat,
    (seconds < 60)%nat /\
    Zfloor (ms / 1000) = Z.of_nat (60 * minutes + seconds) /\
    (Zfloor (ms / 1000) / 60)%Z = Z.of_nat minutes /\
    padStart2 (toString (Z.rem (Zfloor (ms / 1000)) 60)) = twoDigits seconds.
Proof.
  intros Hms.
  assert (Hts : (0 <= Zfloor (ms / 1000))%Z)
    by (apply Zfloor_nonneg; apply Rmult_le_pos; lra).
  set (ts := Zfloor (ms / 1000)) in *.
  exists (Z.to_nat (ts / 60)), (Z.to_nat (ts mod 60)).
  pose proof (Z.mod_pos_bound ts 60 ltac:(lia)) as Hmod.
  assert (Hdiv : (0 <= ts / 60)%Z) by (apply Z.div_pos; lia).
  assert (Hrem : Z.rem ts 60 = (ts mod 60)%Z)
    by (apply Z.rem_mod_nonneg; lia).
  split; [lia |].
  split.
  { rewrite Nat2Z.inj_add, Nat2Z.inj_mul, !Z2Nat.id by lia.
    change (Z.of_nat 60) with 60%Z.
    pose proof (Z.div_mod ts 60 ltac:(lia)); lia. }
  split; [rewrite Z2Nat.id by lia; reflexivity |].
  rewrite Hrem, <- padStart2_seconds by lia.
  rewrite Z2Nat.id by lia; reflexivity.
Qed.

(** For a time that is not negative, [formatTime] of the recording view
    shows whole minutes and seconds: the text is the minutes (at least
    two characters), a colon and exactly two digits of seconds below 60,
    and minutes and seconds together are the whole seconds of the time. *)
Theorem formatTime_minutes_seconds (ms : R) (Hms : 0 <= ms) :
  exists minutes seconds : nat,
    (seconds < 60)%nat /\
    Zfloor (ms / 1000) = Z.of_nat (60 * minutes + seconds) /\
    formatTime ms
    = append (padStart2 (toString (Z.of_nat minutes)))
        (append ":" (twoDigits seconds)) /\
    (2 <= String.length (padStart2 (toString (Z.of_nat minutes))))%nat.
Proof.
  destruct (whole_minutes_seconds ms Hms)
    as (minutes & seconds & Hs & Hts & Hm & Hpad).
  exists minutes, seconds.
  split; [assumption |]; split; [assumption |].
  unfold formatTime; cbv zeta; rewrite Hm, Hpad.
  split; [reflexivity |].
  unfold padStart2.
  destruct (String.length (toString (Z.of_nat minutes))) as [| [| n]] eqn:Hlen;
    simpl; lia.
Qed.

(** 754321 ms is 12 min 34 s. *)
Lemma formatTime_minutes_seconds_witness :
  exists minutes seconds : nat,
    (seconds < 60)%nat /\
    Zfloor (754321 / 1000) = Z.of_nat (60 * minutes + seconds) /\
    formatTime 754321
    = append (padStart2 (toString (Z.of_nat minutes)))
        (append ":" (twoDigits seconds)) /\
    (2 <= String.length (padStart2 (toString (Z.of_nat minutes))))%nat.
Proof.
  apply formatTime_minutes_seconds; lra.
Defined.

(** The editor's [formatTime] shows the same minutes and seconds, the
    minutes as they are: for a time that is not negative the text is the
    decimal minutes, a colon and exactly two digits of seconds below 60,
    so one minute and one second read "1:01" and not "1:1". *)
Theorem formatTimeEditor_minutes_seconds (ms : R) (Hms : 0 <= ms) :
  exists minutes seconds : nat,
    (seconds < 60)%nat /\
    Zfloor (ms / 1000) = Z.of_nat (60 * minutes + seconds) /\
    formatTimeEditor ms
    = append (toString (Z.of_nat minutes)) (append ":" (twoDigits seconds)) /\
    formatTime ms
    = append (padStart2 (toString (Z.of_nat minutes)))
        (append ":" (twoDigits seconds)).
Proof.
  destruct (whole_minutes_seconds ms Hms)
    as (minutes & seconds & Hs & Hts & Hm & Hpad).
  exists minutes, seconds.
  split; [assumption |]; split; [assumption |].
  unfold formatTimeEditor, formatTime; cbv zeta; rewrite Hm, Hpad.
  split; reflexivity.
Qed.

Lemma formatTimeEditor_minutes_seconds_witness :
  exists minutes seconds : nat,
    (seconds < 60)%nat /\
    Zfloor (61000 / 1000) = Z.of_nat (60 * minutes + seconds) /\
    formatTimeEditor 61000
    = append (toString (Z.of_nat minutes)) (append ":" (twoDigits seconds)) /\
    formatTime 61000
    = append (padStart2 (toString (Z.of_nat minutes)))
        (append ":" (twoDigits seconds)).
Proof.
  apply formatTimeEditor_minutes_seconds; lra.
Defined.

(** 12 min 34 s, one minute and one second, and a negative time, where
    minutes and seconds are both negative. *)
Example formatTime_examples :
  formatTime 754321 = "12:34"%string /\
  formatTimeEditor 61000 = "1:01"%string /\
  formatTime (-1) = "-1:-1"%string.
Proof.
  unfold formatTime, formatTimeEditor.
  replace (Zfloor (754321 / 1000)) with 754%Z
    by (symmetry; apply Zfloor_eq; simpl; lra).
  replace (Zfloor (61000 / 1000)) with 61%Z
    by (symmetry; apply Zfloor_eq; simpl; lra).
  replace (Zfloor (-1 / 1000)) with (-1)%Z
    by (symmetry; apply Zfloor_eq; simpl; lra).
  repeat split; vm_compute; reflexivity.
Qed.

End TimeFormatMore.

(** ** Frame stepping *)

Module EditorViewMore.

Import EditorView.

Lemma clamp_inside (duration v : R) :
  0 <= duration -> 0 <= v -> Rmax 0 (Rmin duration v) = Rmin duration v.
Proof.
  intros Hd Hv; apply Rmax_right; apply Rmin_glb; assumption.
Qed.

Lemma clamp_below (duration v : R) :
  0 <= duration -> v <= 0 -> Rmax 0 (Rmin duration v) = 0.
Proof.
  intros Hd Hv; apply Rmax_left.
  apply Rle_trans with v; [apply Rmin_r | assumption].
Qed.

Lemma clamp_range (duration v : R) :
  0 <= duration -> 0 <= Rmax 0 (Rmin duration v) <= duration.
Proof.
  intros Hd; split; [apply Rmax_l |].
  apply Rmax_lub; [assumption | apply Rmin_l].
Qed.

(** One press moves the playhead by at most one frame, in the direction
    of the button, and never off the timeline: from a time in
    [0, duration] the new time is in [0, duration], the video element is
    given the same time in seconds, a press of "forward" at the end and a
    press of "back" at 0 leave the time where it is. *)
Theorem handleFrameStep_stays_on_timeline (fps currentTime duration : R)
    (direction : Direction)
    (Hfps : 0 < fps)
    (Hcurrent : 0 <= currentTime <= duration) :
  exists step,
    handleFrameStep true (Some fps) currentTime duration direction
    = Some step /\
    0 <= newCurrentTime step <= duration /\
    videoCurrentTime step = newCurrentTime step / 1000 /\
    Rabs (newCurrentTime step - currentTime) <= 1000 / fps /\
    match direction with
    | forward =>
        currentTime <= newCurrentTime step /\
        (currentTime = duration -> newCurrentTime step = duration)
    | back =>
        newCurrentTime step <= currentTime /\
        (currentTime = 0 -> newCurrentTime step = 0)
    end.
Proof.
  assert (Hft : 0 < 1000 / fps) by (apply Rdiv_lt_0_compat; lra).
  unfold handleFrameStep; cbv zeta.
  eexists; split; [reflexivity |]; cbn [newCurrentTime videoCurrentTime].
  set (frameTime := 1000 / fps) in *.
  split; [apply clamp_range; lra |].
  split; [reflexivity |].
  destruct direction.
  - destruct (Rle_dec 0 (currentTime + - frameTime)) as [Hin | Hout].
    + rewrite clamp_inside, Rmin_right by lra.
      rewrite Rabs_left by lra; split; [lra |]; split; lra.
    + rewrite clamp_below by lra.
      rewrite Rabs_left1 by lra; split; [lra |]; split; lra.
  - rewrite clamp_inside by lra.
    destruct (Rle_dec (currentTime + frameTime) duration) as [Hin | Hout].
    + rewrite Rmin_right by assumption.
      rewrite Rabs_right by lra; split; [lra |]; split; lra.
    + rewrite Rmin_left by lra.
      rewrite Rabs_right by lra; split; [lra |]; split; lra.
Qed.

(** The last frame of a 10 s video at 30 frames a second: "forward" from
    9990 ms stops at the end. *)
Lemma handleFrameStep_stays_on_timeline_witness :
  exists step,
    handleFrameStep true (Some 30) 9990 10000 forward = Some step /\
    0 <= newCurrentTime step <= 10000 /\
    videoCurrentTime step = newCurrentTime step / 1000 /\
    Rabs (newCurrentTime step - 9990) <= 1000 / 30 /\
    9990 <= newCurrentTime step /\
    (9990 = 10000 -> newCurrentTime step = 10000).
Proof.
  apply (handleFrameStep_stays_on_timeline 30 9990 10000 forward); lra.
Defined.

Lemma handleFrameStepN_forward n :
  forall fps currentTime duration,
    0 < fps -> 0 <= currentTime <= duration ->
    handleFrameStepN n true (Some fps) currentTime duration forward
    = Some (Rmin duration (currentTime + INR n * (1000 / fps))).
Proof.
  induction n as [| n IH]; intros fps currentTime duration Hfps Hcur.
  - cbn [handleFrameStepN INR].
    replace (currentTime + 0 * (1000 / fps)) with currentTime by ring.
    rewrite Rmin_right by lra; reflexivity.
  - assert (Hft : 0 < 1000 / fps) by (apply Rdiv_lt_0_compat; lra).
    assert (Hn : 0 <= INR n * (1000 / fps))
      by (apply Rmult_le_pos; [apply pos_INR | lra]).
    cbn [handleFrameStepN handleFrameStep newCurrentTime].
    rewrite clamp_inside by lra.
    rewrite S_INR.
    set (frameTime := 1000 / fps) in *.
    destruct (Rle_dec (currentTime + frameTime) duration) as [Hin | Hout].
    + rewrite Rmin_right by assumption.
      rewrite IH by (try assumption; lra).
      f_equal; f_equal; unfold frameTime; ring.
    + rewrite Rmin_left by lra.
      rewrite IH by (try assumption; lra).
      fold frameTime; rewrite !Rmin_left by lra; reflexivity.
Qed.

Lemma handleFrameStepN_back n :
  forall fps currentTime duration,
    0 < fps -> 0 <= currentTime <= duration ->
    handleFrameStepN n true (Some fps) currentTime duration back
    = Some (Rmax 0 (currentTime - INR n * (1000 / fps))).
Proof.
  induction n as [| n IH]; intros fps currentTime duration Hfps Hcur.
  - cbn [handleFrameStepN INR].
    replace (currentTime - 0 * (1000 / fps)) with currentTime by ring.
    rewrite Rmax_right by lra; reflexivity.
  - assert (Hft : 0 < 1000 / fps) by (apply Rdiv_lt_0_compat; lra).
    assert (Hn : 0 <= INR n * (1000 / fps))
      by (apply Rmult_le_pos; [apply pos_INR | lra]).
    cbn [handleFrameStepN handleFrameStep newCurrentTime].
    rewrite S_INR.
    set (frameTime := 1000 / fps) in *.
    destruct (Rle_dec 0 (currentTime + - frameTime)) as [Hin | Hout].
    + rewrite clamp_inside, Rmin_right by lra.
      rewrite IH by (try assumption; lra).
      f_equal; f_equal; unfold frameTime; ring.
    + rewrite clamp_below by lra.
      rewrite IH by (try assumption; lra).
      fold frameTime; rewrite !Rmax_left by lra; reflexivity.
Qed.

(** Pressing a button again and again, each press reading the time the
    press before has set.  [n] presses of "forward" move the playhead [n]
    frames ahead and stop at the end of the timeline; [n] presses of
    "back" move it [n] frames back and stop at 0.  The clamp is applied
    at every press, and the result is the same as clamping once. *)
Theorem handleFrameStep_repeated (n : nat) (fps currentTime duration : R)
    (Hfps : 0 < fps)
    (Hcurrent : 0 <= currentTime <= duration) :
  handleFrameStepN n true (Some fps) currentTime duration forward
  = Some (Rmin duration (currentTime + INR n * (1000 / fps))) /\
  handleFrameStepN n true (Some fps) currentTime duration back
  = Some (Rmax 0 (currentTime - INR n * (1000 / fps))).
Proof.
  split.
  - apply handleFrameStepN_forward; assumption.
  - apply handleFrameStepN_back; assumption.
Qed.

(** Three presses at 25 frames a second (40 ms a frame) from 100 ms of a
    200 ms clip: forward stops at 200 ms, back at 0. *)
Lemma handleFrameStep_repeated_witness :
  handleFrameStepN 3 true (Some 25) 100 200 forward
  = Some (Rmin 200 (100 + INR 3 * (1000 / 25))) /\
  handleFrameStepN 3 true (Some 25) 100 200 back
  = Some (Rmax 0 (100 - INR 3 * (1000 / 25))).
Proof.
  apply (handleFrameStep_repeated 3 25 100 200); lra.
Defined.

(** Without a video element or without a bundle the callback writes
    nothing. *)
Example handleFrameStep_guard fps currentTime duration direction :
  handleFrameStep false fps currentTime duration direction = None /\
  handleFrameStep true None currentTime duration direction = None.
Proof. split; reflexivity. Qed.

End EditorViewMore.
